(** * PyFlow scene clipboard: a shallow embedding of
      [pyflow/scene/clipboard.py] and the properties of its cut / copy /
      paste pipeline.

    Conventions of the embedding.
    - Python [int] identities ([id(self)]) are [Z].
    - Coordinates and sizes are exact rationals [Q]; the rounding of the
      machine floats Qt hands out is not part of the model.
    - Python [dict]s used as maps ([selected_sockets], [hashmap]) are
      stdpp [gmap]s keyed by identity.
    - Mutation of [self.scene], [self.objects] and the warning channel is
      explicit state passing in the monad [M]; Python exceptions are the
      [Raise] outcome. *)

From Stdlib Require Import ZArith QArith Qfield Lqa String.
From stdpp Require Import base option list gmap.

Local Open Scope Z_scope.

(** ** Data model *)

Definition ident := Z.

(** A port of a block: [socket.id] and the back-reference to its block. *)
Record Socket := mkSocket {
  socket_id : ident;
  socket_block : ident
}.

Record Block := mkBlock {
  block_id : ident;
  block_x : Q;
  block_y : Q;
  block_width : Q;
  block_height : Q;
  sockets_in : list Socket;
  sockets_out : list Socket;
  block_selected : bool
}.

Record Edge := mkEdge {
  edge_id : ident;
  source_socket : Socket;
  destination_socket : Socket;
  edge_selected : bool
}.

#[global] Instance Socket_eq_dec : EqDecision Socket.
Proof. solve_decision. Defined.

#[global] Instance Edge_eq_dec : EqDecision Edge.
Proof. solve_decision. Defined.

(** ** The edge filter of [_serializeSelected]

    [for edge in selected_edges: if ...: selected_edges.remove(edge)]
    A Python list iterator is an index into the live list: each round reads
    [l[i]] (stopping once [i] is past the end) and then moves to [i+1],
    whatever happened to the list in between. *)

(** [list.remove(x)]: drop the first element equal to [x]. [Edge] defines no
    [__eq__], so equality is identity of the object, here of the record that
    stands for it. *)
Fixpoint list_remove_first (x : Edge) (l : list Edge) : list Edge :=
  match l with
  | [] => []
  | y :: l' => if decide (y = x) then l' else y :: list_remove_first x l'
  end.

(** The guard of the loop body. *)
Definition not_fully_connected (selected_sockets : gmap ident Socket)
    (edge : Edge) : bool :=
  bool_decide (selected_sockets !! socket_id (source_socket edge) = None)
  || bool_decide (selected_sockets !! socket_id (destination_socket edge) = None).

(** The loop, started at iterator index [i]; [None] when [fuel] rounds were
    not enough to reach the end of the list. *)
Fixpoint filter_edges_loop (fuel : nat) (selected_sockets : gmap ident Socket)
    (i : nat) (selected_edges : list Edge) : option (list Edge) :=
  match selected_edges !! i with
  | None => Some selected_edges
  | Some edge =>
      match fuel with
      | O => None
      | S fuel' =>
          if not_fully_connected selected_sockets edge
          then filter_edges_loop fuel' selected_sockets (S i)
                 (list_remove_first edge selected_edges)
          else filter_edges_loop fuel' selected_sockets (S i) selected_edges
      end
  end.

Definition filter_edges (selected_sockets : gmap ident Socket)
    (selected_edges : list Edge) : list Edge :=
  default selected_edges
    (filter_edges_loop (length selected_edges) selected_sockets 0 selected_edges).

(** ** Serialized data (the clipboard payload) *)

(** Modelled from the spec: the data-only record of a port, its identity
    and the identity of the node that owns it ([Socket.serialize] is not
    part of this module). *)
Record SocketData := mkSocketData {
  sd_id : ident;
  sd_block : ident
}.

(** One entry of [data["blocks"]]: the keys [_find_bbox_center] reads
    ([position], [width], [height]), the identity and the node's ports. *)
Record BlockData := mkBlockData {
  bd_id : ident;
  bd_position : Q * Q;
  bd_width : Q;
  bd_height : Q;
  bd_sockets_in : list SocketData;
  bd_sockets_out : list SocketData
}.

(** One entry of [data["edges"]]. *)
Record EdgeData := mkEdgeData {
  ed_id : ident;
  ed_source_socket : SocketData;
  ed_destination_socket : SocketData
}.

(** The [OrderedDict] handed to [_store]: a key that is missing is [None]. *)
Record OrderedDict := mkData {
  blocks : option (list BlockData);
  edges : option (list EdgeData)
}.

(** ** The scene and the clipboard object *)

Record Scene := mkScene {
  scene_blocks : list Block;
  scene_edges : list Edge;
  history : list (string * bool);   (* scene.history checkpoints, oldest first *)
  lastMousePos : Q * Q;             (* scene.views()[0].lastMousePos *)
  next_id : ident                   (* supply of identities for new items *)
}.

(** [self.scene], [self.objects] and the warnings emitted so far. *)
Record SceneClipboard := mkClipboard {
  scene : Scene;
  objects : option OrderedDict;
  warnings : list string
}.

(** [SceneClipboard.__init__] *)
Definition __init__ (s : Scene) : SceneClipboard :=
  {| scene := s; objects := None; warnings := [] |}.

(** ** State and exceptions *)

Inductive Exn := ValueError | KeyError.

Inductive outcome (A : Type) :=
  | Return (a : A)
  | Raise (e : Exn).
Arguments Return {A} a.
Arguments Raise {A} e.

(** A method of [SceneClipboard]: it runs on the object and leaves it in a
    new state, whether it returns or raises. *)
Definition M (A : Type) : Type := SceneClipboard -> outcome A * SceneClipboard.

Definition ret {A} (a : A) : M A := fun w => (Return a, w).
Definition raise {A} (e : Exn) : M A := fun w => (Raise e, w).
Definition bind {A B} (m : M A) (k : A -> M B) : M B :=
  fun w => match m w with
           | (Return a, w') => k a w'
           | (Raise e, w') => (Raise e, w')
           end.

Notation "x <- m ;; k" := (bind m (fun x => k))
  (at level 62, m at next level, right associativity).
Notation "m ;;; k" := (bind m (fun _ => k))
  (at level 62, right associativity).

Definition get_scene : M Scene := fun w => (Return (scene w), w).
Definition modify_scene (f : Scene -> Scene) : M unit :=
  fun w => (Return tt, {| scene := f (scene w); objects := objects w;
                          warnings := warnings w |}).

(** [for x in l: ...] over a list the body does not touch, threading the
    local variable [acc] (the [hashmap]) through its rounds. *)
Fixpoint for_fold {A S} (l : list A) (acc : S) (body : A -> S -> M S) : M S :=
  match l with
  | [] => ret acc
  | x :: l' => acc' <- body x acc ;; for_fold l' acc' body
  end.

(** [warn(msg)] *)
Definition warn (msg : string) : M unit :=
  fun w => (Return tt, {| scene := scene w; objects := objects w;
                          warnings := warnings w ++ [msg] |}).

(** [data[key]] *)
Definition getitem {A} (v : option A) : M A :=
  match v with
  | Some a => ret a
  | None => raise KeyError
  end.

(** ** Collaborators that live outside this module *)

(** Modelled from the spec: [Scene.sortedSelectedItems], the query of the
    currently selected nodes and links, as two fresh lists in the scene's
    (stable) order. *)
Definition sortedSelectedItems (s : Scene) : list Block * list Edge :=
  (List.filter block_selected (scene_blocks s),
   List.filter edge_selected (scene_edges s)).

(** Modelled from the spec: [View.deleteSelected], deletion of the selected
    items from the scene. *)
Definition deleteSelected (s : Scene) : Scene :=
  {| scene_blocks := List.filter (fun b => negb (block_selected b)) (scene_blocks s);
     scene_edges := List.filter (fun e => negb (edge_selected e)) (scene_edges s);
     history := history s;
     lastMousePos := lastMousePos s;
     next_id := next_id s |}.

Definition Block_setSelected (v : bool) (b : Block) : Block :=
  {| block_id := block_id b; block_x := block_x b; block_y := block_y b;
     block_width := block_width b; block_height := block_height b;
     sockets_in := sockets_in b; sockets_out := sockets_out b;
     block_selected := v |}.

Definition Block_setPos (x y : Q) (b : Block) : Block :=
  {| block_id := block_id b; block_x := x; block_y := y;
     block_width := block_width b; block_height := block_height b;
     sockets_in := sockets_in b; sockets_out := sockets_out b;
     block_selected := block_selected b |}.

Definition Edge_setSelected (v : bool) (e : Edge) : Edge :=
  {| edge_id := edge_id e; source_socket := source_socket e;
     destination_socket := destination_socket e; edge_selected := v |}.

(** Modelled from the spec: [Scene.clearSelection], no item stays selected. *)
Definition clearSelection (s : Scene) : Scene :=
  {| scene_blocks := map (Block_setSelected false) (scene_blocks s);
     scene_edges := map (Edge_setSelected false) (scene_edges s);
     history := history s;
     lastMousePos := lastMousePos s;
     next_id := next_id s |}.

(** Modelled from the spec: [scene.history.checkpoint(label, set_modified)],
    the change-checkpoint notification. *)
Definition checkpoint (label : string) (set_modified : bool) (s : Scene) : Scene :=
  {| scene_blocks := scene_blocks s;
     scene_edges := scene_edges s;
     history := history s ++ [(label, set_modified)];
     lastMousePos := lastMousePos s;
     next_id := next_id s |}.

(** Modelled from the spec: [Socket.serialize], [Block.serialize] and
    [Edge.serialize], the data-only representation of a port, a node and a
    link (plain attribute records, no live references). *)
Definition Socket_serialize (s : Socket) : SocketData :=
  {| sd_id := socket_id s; sd_block := socket_block s |}.

Definition Block_serialize (b : Block) : BlockData :=
  {| bd_id := block_id b;
     bd_position := (block_x b, block_y b);
     bd_width := block_width b;
     bd_height := block_height b;
     bd_sockets_in := map Socket_serialize (sockets_in b);
     bd_sockets_out := map Socket_serialize (sockets_out b) |}.

Definition Edge_serialize (e : Edge) : EdgeData :=
  {| ed_id := edge_id e;
     ed_source_socket := Socket_serialize (source_socket e);
     ed_destination_socket := Socket_serialize (destination_socket e) |}.

(** *** Identity rebinding *)

(** What the rebinding map ([hashmap]) holds under an old identity: the
    live item built from it. Nodes and links are named by their place in
    the scene, ports by value. *)
Inductive Item :=
  | ItemBlock (handle : nat)
  | ItemSocket (socket : Socket)
  | ItemEdge (handle : nat).

(** Modelled from the spec: a freshly generated identity. *)
Definition fresh_id : M ident :=
  fun w =>
    let s := scene w in
    (Return (next_id s),
     {| scene := {| scene_blocks := scene_blocks s; scene_edges := scene_edges s;
                    history := history s; lastMousePos := lastMousePos s;
                    next_id := next_id s + 1 |};
        objects := objects w; warnings := warnings w |}).

(** Modelled from the spec: the flag that says whether the serialized
    identity is preserved or a new one is generated. *)
Definition new_id (restore_id : bool) (serialized : ident) : M ident :=
  if restore_id then ret serialized else fresh_id.

(** Modelled from the spec: the ports of a node under construction; each one
    is recorded in the rebinding map under its old identity. *)
Definition create_socket (block : ident) (restore_id : bool)
    (socket_data : SocketData) (acc : list Socket * gmap ident Item)
    : M (list Socket * gmap ident Item) :=
  i <- new_id restore_id (sd_id socket_data) ;;
  let socket := {| socket_id := i; socket_block := block |} in
  ret (acc.1 ++ [socket], <[sd_id socket_data := ItemSocket socket]> acc.2).

Definition add_block (b : Block) (s : Scene) : Scene :=
  {| scene_blocks := scene_blocks s ++ [b]; scene_edges := scene_edges s;
     history := history s; lastMousePos := lastMousePos s;
     next_id := next_id s |}.

(** Modelled from the spec: [Scene.create_block(data, hashmap, restore_id)]
    creates a node of the scene from its data, at the serialized position,
    and records old identity -> new node in the rebinding map. The result
    is the handle of the new node. *)
Definition create_block (block_data : BlockData) (hashmap : gmap ident Item)
    (restore_id : bool) : M (nat * gmap ident Item) :=
  i <- new_id restore_id (bd_id block_data) ;;
  r_in <- for_fold (bd_sockets_in block_data) ([], hashmap)
            (create_socket i restore_id) ;;
  r_out <- for_fold (bd_sockets_out block_data) ([], r_in.2)
             (create_socket i restore_id) ;;
  s <- get_scene ;;
  let handle := length (scene_blocks s) in
  let block := {| block_id := i;
                  block_x := fst (bd_position block_data);
                  block_y := snd (bd_position block_data);
                  block_width := bd_width block_data;
                  block_height := bd_height block_data;
                  sockets_in := r_in.1; sockets_out := r_out.1;
                  block_selected := false |} in
  modify_scene (add_block block) ;;;
  ret (handle, <[bd_id block_data := ItemBlock handle]> r_out.2).

(** A method call on the live node behind a handle. *)
Definition update_block (handle : nat) (f : Block -> Block) (s : Scene) : Scene :=
  {| scene_blocks := alter f handle (scene_blocks s);
     scene_edges := scene_edges s;
     history := history s; lastMousePos := lastMousePos s;
     next_id := next_id s |}.

(** Modelled from the spec: an endpoint of a serialized link is resolved by
    looking up its owner's original identity in the rebinding map to obtain
    the live node, then binding to that node's corresponding port; an
    endpoint that cannot be resolved aborts the operation. *)
Definition resolve_socket (hashmap : gmap ident Item) (sd : SocketData) : M Socket :=
  match hashmap !! sd_block sd with
  | Some (ItemBlock _) =>
      match hashmap !! sd_id sd with
      | Some (ItemSocket socket) => ret socket
      | _ => raise KeyError
      end
  | _ => raise KeyError
  end.

(** Modelled from the spec: [Edge()] followed by
    [edge.deserialize(edge_data, hashmap, restore_id)]. *)
Definition Edge_deserialize (edge_data : EdgeData) (hashmap : gmap ident Item)
    (restore_id : bool) : M Edge :=
  i <- new_id restore_id (ed_id edge_data) ;;
  src <- resolve_socket hashmap (ed_source_socket edge_data) ;;
  dst <- resolve_socket hashmap (ed_destination_socket edge_data) ;;
  ret {| edge_id := i; source_socket := src; destination_socket := dst;
         edge_selected := false |}.

(** Modelled from the spec: [Scene.addItem(edge)]; the result is the handle
    of the link in the scene. *)
Definition addItem (e : Edge) : M nat :=
  s <- get_scene ;;
  modify_scene (fun s => {| scene_blocks := scene_blocks s;
                            scene_edges := scene_edges s ++ [e];
                            history := history s; lastMousePos := lastMousePos s;
                            next_id := next_id s |}) ;;;
  ret (length (scene_edges s)).

(** ** The methods of [SceneClipboard] *)

(** The first two loops of [_serializeSelected]:
    [selected_sockets[socket.id] = socket] for every port of every
    selected block. *)
Definition gather_sockets (selected_blocks : list Block) : gmap ident Socket :=
  fold_left
    (fun acc block =>
       fold_left (fun acc socket => <[socket_id socket := socket]> acc)
                 (sockets_in block ++ sockets_out block) acc)
    selected_blocks ∅.

Definition _serializeSelected (delete : bool) : M OrderedDict :=
  s <- get_scene ;;
  let selected_blocks := (sortedSelectedItems s).1 in
  let selected_edges := (sortedSelectedItems s).2 in
  let selected_sockets := gather_sockets selected_blocks in
  let selected_edges := filter_edges selected_sockets selected_edges in
  let data := {| blocks := Some (map Block_serialize selected_blocks);
                 edges := Some (map Edge_serialize selected_edges) |} in
  (if delete then modify_scene deleteSelected else ret tt) ;;;
  ret data.

(** Python's [min] and [max] over a sequence: [ValueError] on an empty one,
    otherwise the first smallest (largest) item. *)
Definition Qlt_bool (x y : Q) : bool := negb (Qle_bool y x).

Definition py_min (l : list Q) : outcome Q :=
  match l with
  | [] => Raise ValueError
  | x :: l' =>
      Return (fold_left (fun cur item => if Qlt_bool item cur then item else cur) l' x)
  end.

Definition py_max (l : list Q) : outcome Q :=
  match l with
  | [] => Raise ValueError
  | x :: l' =>
      Return (fold_left (fun cur item => if Qlt_bool cur item then item else cur) l' x)
  end.

Definition lift {A} (o : outcome A) : M A := fun w => (o, w).

Definition _find_bbox_center (blocks_data : list BlockData) : M (Q * Q) :=
  xmin <- lift (py_min (map (fun block => fst (bd_position block)) blocks_data)) ;;
  xmax <- lift (py_max (map (fun block => (fst (bd_position block) + bd_width block)%Q)
                            blocks_data)) ;;
  ymin <- lift (py_min (map (fun block => snd (bd_position block)) blocks_data)) ;;
  ymax <- lift (py_max (map (fun block => (snd (bd_position block) + bd_height block)%Q)
                            blocks_data)) ;;
  ret (((xmin + xmax) / 2)%Q, ((ymin + ymax) / 2)%Q).

(** The body of the [# Create blocks] loop. *)
Definition paste_block (set_selected : bool) (offset_x offset_y : Q)
    (block_data : BlockData) (hashmap : gmap ident Item) : M (gmap ident Item) :=
  r <- create_block block_data hashmap false ;;
  let block := r.1 in
  (if set_selected then modify_scene (update_block block (Block_setSelected true))
   else ret tt) ;;;
  modify_scene (update_block block
    (fun b => Block_setPos (block_x b + offset_x)%Q (block_y b + offset_y)%Q b)) ;;;
  ret r.2.

(** The body of the [# Create edges] loop. *)
Definition paste_edge (set_selected : bool)
    (edge_data : EdgeData) (hashmap : gmap ident Item) : M (gmap ident Item) :=
  edge <- Edge_deserialize edge_data hashmap false ;;
  let edge := if set_selected then Edge_setSelected true edge else edge in
  handle <- addItem edge ;;
  ret (<[ed_id edge_data := ItemEdge handle]> hashmap).

Definition _deserializeData (data : option OrderedDict) (set_selected : bool)
    : M unit :=
  match data with
  | None => ret tt
  | Some data =>
      let hashmap : gmap ident Item := ∅ in
      s <- get_scene ;;
      let mouse_pos := lastMousePos s in
      (if set_selected then modify_scene clearSelection else ret tt) ;;;
      blocks_data <- getitem (blocks data) ;;
      center <- _find_bbox_center blocks_data ;;
      let offset_x := (fst mouse_pos - fst center)%Q in
      let offset_y := (snd mouse_pos - snd center)%Q in
      hashmap <- for_fold blocks_data hashmap
                   (paste_block set_selected offset_x offset_y) ;;
      edges_data <- getitem (edges data) ;;
      hashmap <- for_fold edges_data hashmap (paste_edge set_selected) ;;
      modify_scene (checkpoint "Desiralized elements into scene" true)
  end.

Definition get_objects : M (option OrderedDict) :=
  fun w => (Return (objects w), w).
Definition set_objects (o : option OrderedDict) : M unit :=
  fun w => (Return tt, {| scene := scene w; objects := o; warnings := warnings w |}).

Definition _store (data : OrderedDict) : M unit :=
  match blocks data with
  | None => set_objects None            (* "blocks" not in data *)
  | Some [] => set_objects None         (* not data["blocks"] *)
  | Some (_ :: _) => set_objects (Some data)
  end.

Definition _gatherData : M (option OrderedDict) :=
  o <- get_objects ;;
  (if o is None then warn "No object is loaded" else ret tt) ;;;
  get_objects.

Definition cut : M unit :=
  data <- _serializeSelected true ;; _store data.

Definition copy : M unit :=
  data <- _serializeSelected false ;; _store data.

Definition paste : M unit :=
  data <- _gatherData ;;
  match data with
  | Some _ => _deserializeData data true
  | None => ret tt
  end.

(** * Vocabulary of the properties

    Predicates the statements below are written with, and closed forms of
    what the loops compute, each proved equal to the loop it stands for. *)

(** ** Payloads *)

(** Spec wording of the filter: a new sequence that retains exactly the links
    whose source and destination port are both selected. *)
Definition filter_edges_spec (selected_sockets : gmap ident Socket)
    (selected_edges : list Edge) : list Edge :=
  List.filter (fun e => negb (not_fully_connected selected_sockets e)) selected_edges.

(** The identities of the ports of the nodes of a payload. *)
Definition payload_socket_ids (bs : list BlockData) : list ident :=
  concat (map (fun b => map sd_id (bd_sockets_in b ++ bd_sockets_out b)) bs).

(** A serialized link lies within a payload when both its endpoints are
    ports of nodes of the payload. *)
Definition edge_within (bs : list BlockData) (ed : EdgeData) : Prop :=
  sd_id (ed_source_socket ed) ∈ payload_socket_ids bs
  /\ sd_id (ed_destination_socket ed) ∈ payload_socket_ids bs.

Definition payload_closed (d : OrderedDict) : Prop :=
  match blocks d, edges d with
  | Some bs, Some es => Forall (edge_within bs) es
  | _, _ => False
  end.

(** ** The store *)

(** The payload [_serializeSelected] builds from a scene. *)
Definition snapshot_of (s : Scene) : OrderedDict :=
  {| blocks := Some (map Block_serialize (sortedSelectedItems s).1);
     edges := Some (map Edge_serialize
                (filter_edges (gather_sockets (sortedSelectedItems s).1)
                              (sortedSelectedItems s).2)) |}.

Definition with_scene (s : Scene) (w : SceneClipboard) : SceneClipboard :=
  {| scene := s; objects := objects w; warnings := warnings w |}.

Definition with_objects (o : option OrderedDict) (w : SceneClipboard)
    : SceneClipboard :=
  {| scene := scene w; objects := o; warnings := warnings w |}.

(** What [_store] leaves in [self.objects]. *)
Definition stored (data : OrderedDict) : option OrderedDict :=
  match blocks data with
  | Some (_ :: _) => Some data
  | _ => None
  end.

(** The validity rule of the store: absent, or a payload with a node. *)
Definition store_valid (o : option OrderedDict) : Prop :=
  match o with
  | None => True
  | Some d => exists b bs, blocks d = Some (b :: bs)
  end.

(** ** Frames, exceptions and reachable states *)

(** The method [m] leaves the component [f] of the state as it was, whether
    it returns or raises. *)
Definition keeps {A X} (f : SceneClipboard -> X) (m : M A) : Prop :=
  forall w, f (m w).2 = f w.

Abbreviation keeps_objects := (keeps objects).

Definition blocks_of (w : SceneClipboard) : list Block := scene_blocks (scene w).

(** A method that never raises the exception [e]. *)
Definition never_raises {A} (e : Exn) (m : M A) : Prop :=
  forall w, (m w).1 <> Raise e.

(** The states a clipboard object goes through: it is created with an empty
    store, the user cuts, copies and pastes, and between two such operations
    the editor changes the scene (selection, pointer, items) as it likes. *)
Inductive reachable : SceneClipboard -> Prop :=
  | reach_init s : reachable (__init__ s)
  | reach_cut w : reachable w -> reachable (cut w).2
  | reach_copy w : reachable w -> reachable (copy w).2
  | reach_paste w : reachable w -> reachable (paste w).2
  | reach_scene w s : reachable w -> reachable (with_scene s w).

(** ** Closed forms of the paste loops *)

(** The ports made for a node with identity [block], the first of them
    getting identity [n]. *)
Fixpoint new_sockets (block n : ident) (sds : list SocketData) : list Socket :=
  match sds with
  | [] => []
  | _ :: sds' => mkSocket n block :: new_sockets block (n + 1) sds'
  end.

Fixpoint bind_sockets (block n : ident) (sds : list SocketData)
    (hm : gmap ident Item) : gmap ident Item :=
  match sds with
  | [] => hm
  | sd :: sds' =>
      bind_sockets block (n + 1) sds' (<[sd_id sd := ItemSocket (mkSocket n block)]> hm)
  end.

(** The number of identities a node takes: its own and one per port. *)
Definition ids_used (bd : BlockData) : Z :=
  1 + Z.of_nat (length (bd_sockets_in bd)) + Z.of_nat (length (bd_sockets_out bd)).

(** The node [create_block] makes from [bd] when the next identity is [n]. *)
Definition built_block (n : ident) (bd : BlockData) : Block :=
  {| block_id := n;
     block_x := fst (bd_position bd);
     block_y := snd (bd_position bd);
     block_width := bd_width bd;
     block_height := bd_height bd;
     sockets_in := new_sockets n (n + 1) (bd_sockets_in bd);
     sockets_out :=
       new_sockets n (n + 1 + Z.of_nat (length (bd_sockets_in bd)))
         (bd_sockets_out bd);
     block_selected := false |}.

Definition rebind_block (n : ident) (handle : nat) (bd : BlockData)
    (hm : gmap ident Item) : gmap ident Item :=
  <[bd_id bd := ItemBlock handle]>
    (bind_sockets n (n + 1 + Z.of_nat (length (bd_sockets_in bd)))
       (bd_sockets_out bd)
       (bind_sockets n (n + 1) (bd_sockets_in bd) hm)).

(** A new node after the two calls paste makes on it. *)
Definition placed (set_selected : bool) (offset_x offset_y : Q) (b : Block) : Block :=
  let b := if set_selected then Block_setSelected true b else b in
  Block_setPos (block_x b + offset_x)%Q (block_y b + offset_y)%Q b.

Fixpoint pasted_blocks (sel : bool) (ox oy : Q) (n : ident) (bds : list BlockData)
    : list Block :=
  match bds with
  | [] => []
  | bd :: bds' =>
      placed sel ox oy (built_block n bd) :: pasted_blocks sel ox oy (n + ids_used bd) bds'
  end.

Fixpoint rebind_blocks (n : ident) (handle : nat) (bds : list BlockData)
    (hm : gmap ident Item) : gmap ident Item :=
  match bds with
  | [] => hm
  | bd :: bds' =>
      rebind_blocks (n + ids_used bd) (S handle) bds' (rebind_block n handle bd hm)
  end.

Fixpoint ids_total (bds : list BlockData) : Z :=
  match bds with
  | [] => 0
  | bd :: bds' => ids_used bd + ids_total bds'
  end.

(** ** The bounding box *)

Definition min_of (x : Q) (l : list Q) : Q :=
  fold_left (fun cur item => if Qlt_bool item cur then item else cur) l x.

Definition max_of (x : Q) (l : list Q) : Q :=
  fold_left (fun cur item => if Qlt_bool cur item then item else cur) l x.

(** Spec wording: [m] is the minimum (maximum) of the sequence. *)
Definition is_min (m : Q) (l : list Q) : Prop :=
  m ∈ l /\ forall y, y ∈ l -> (m <= y)%Q.

Definition is_max (m : Q) (l : list Q) : Prop :=
  m ∈ l /\ forall y, y ∈ l -> (y <= m)%Q.

(** Spec wording: [xmin = min(node.x)], [xmax = max(node.x + node.width)],
    similarly for y. *)
Definition bounding_box (bs : list BlockData) (xmin xmax ymin ymax : Q) : Prop :=
  is_min xmin (map (fun b => fst (bd_position b)) bs)
  /\ is_max xmax (map (fun b => (fst (bd_position b) + bd_width b)%Q) bs)
  /\ is_min ymin (map (fun b => snd (bd_position b)) bs)
  /\ is_max ymax (map (fun b => (snd (bd_position b) + bd_height b)%Q) bs).

(** The bounds [_find_bbox_center] computes for the sequence [b :: bs]. *)
Definition bbox_xmin b bs :=
  min_of (fst (bd_position b)) (map (fun b => fst (bd_position b)) bs).
Definition bbox_xmax b bs :=
  max_of (fst (bd_position b) + bd_width b)%Q
         (map (fun b => (fst (bd_position b) + bd_width b)%Q) bs).
Definition bbox_ymin b bs :=
  min_of (snd (bd_position b)) (map (fun b => snd (bd_position b)) bs).
Definition bbox_ymax b bs :=
  max_of (snd (bd_position b) + bd_height b)%Q
         (map (fun b => (snd (bd_position b) + bd_height b)%Q) bs).

Definition bbox_center (b : BlockData) (bs : list BlockData) : Q * Q :=
  (((bbox_xmin b bs + bbox_xmax b bs) / 2)%Q,
   ((bbox_ymin b bs + bbox_ymax b bs) / 2)%Q).

(** ** The two phases of paste *)

(** From [data["edges"]] to the checkpoint. *)
Definition paste_edges_phase (sel : bool) (d : OrderedDict)
    (hm : gmap ident Item) : M unit :=
  edges_data <- getitem (edges d) ;;
  hashmap <- for_fold edges_data hm (paste_edge sel) ;;
  modify_scene (checkpoint "Desiralized elements into scene" true).

Definition offset_for (mouse_pos center : Q * Q) : Q * Q :=
  ((fst mouse_pos - fst center)%Q, (snd mouse_pos - snd center)%Q).

(** The state once every block of the payload is in the scene. *)
Definition blocks_pasted (sel : bool) (b : BlockData) (bs : list BlockData)
    (w : SceneClipboard) : SceneClipboard :=
  let s := if sel then clearSelection (scene w) else scene w in
  let off := offset_for (lastMousePos (scene w)) (bbox_center b bs) in
  {| scene :=
       {| scene_blocks :=
            scene_blocks s
            ++ pasted_blocks sel (fst off) (snd off) (next_id (scene w)) (b :: bs);
          scene_edges := scene_edges s;
          history := history (scene w);
          lastMousePos := lastMousePos (scene w);
          next_id := next_id (scene w) + ids_total (b :: bs) |};
     objects := objects w;
     warnings := warnings w |}.


(** ** Identities and the rebinding map *)

(** The identities a serialized node brings: its own and its ports'. *)
Definition block_data_ids (bd : BlockData) : list ident :=
  bd_id bd :: map sd_id (bd_sockets_in bd ++ bd_sockets_out bd).

Definition payload_node_ids (bs : list BlockData) : list ident :=
  concat (map block_data_ids bs).

(** All identities of a payload. *)
Definition payload_ids (bs : list BlockData) (es : list EdgeData) : list ident :=
  payload_node_ids bs ++ map ed_id es.

(** A serialized endpoint is valid in a payload when its owner is a node of
    the payload and the port is a port of the payload. *)
Definition endpoint_valid (bs : list BlockData) (sd : SocketData) : Prop :=
  sd_block sd ∈ map bd_id bs /\ sd_id sd ∈ payload_socket_ids bs.

Definition link_valid (bs : list BlockData) (ed : EdgeData) : Prop :=
  endpoint_valid bs (ed_source_socket ed)
  /\ endpoint_valid bs (ed_destination_socket ed).

Definition is_block_item (hm : gmap ident Item) (k : ident) : Prop :=
  exists handle, hm !! k = Some (ItemBlock handle).

Definition is_socket_item (hm : gmap ident Item) (k : ident) : Prop :=
  exists socket, hm !! k = Some (ItemSocket socket).

Definition resolves (hm : gmap ident Item) (sd : SocketData) : Prop :=
  is_block_item hm (sd_block sd) /\ is_socket_item hm (sd_id sd).

Definition edge_resolves (hm : gmap ident Item) (ed : EdgeData) : Prop :=
  resolves hm (ed_source_socket ed) /\ resolves hm (ed_destination_socket ed).

(** The keys [Edge.deserialize] looks up for a link. *)
Definition endpoint_keys (ed : EdgeData) : list ident :=
  [sd_block (ed_source_socket ed); sd_id (ed_source_socket ed);
   sd_block (ed_destination_socket ed); sd_id (ed_destination_socket ed)].

(** The identities in use in a scene. *)
Definition block_ids (b : Block) : list ident :=
  block_id b :: map socket_id (sockets_in b ++ sockets_out b).

Definition scene_ids (s : Scene) : list ident :=
  concat (map block_ids (scene_blocks s)) ++ map edge_id (scene_edges s).

(** The identity supply has not been used yet: every identity of the payload
    and of the scene lies below it. *)
Definition supply_above (w : SceneClipboard) (bs : list BlockData)
    (es : list EdgeData) : Prop :=
  Forall (fun i => i < next_id (scene w)) (payload_ids bs es ++ scene_ids (scene w)).

(** The outcome of a paste of the nodes [bs] and links [es] in the state [w]:
    as many new nodes and new links as serialized ones, under identities
    that are pairwise distinct and occur neither in the payload nor in the
    scene before the paste. *)
Definition pasted_fresh (w : SceneClipboard) (bs : list BlockData)
    (es : list EdgeData) : Prop :=
  exists (new_blocks : list Block) (new_edges : list Edge),
    (paste w).1 = Return tt
    /\ scene_blocks (scene (paste w).2)
       = map (Block_setSelected false) (scene_blocks (scene w)) ++ new_blocks
    /\ scene_edges (scene (paste w).2)
       = map (Edge_setSelected false) (scene_edges (scene w)) ++ new_edges
    /\ length new_blocks = length bs
    /\ length new_edges = length es
    /\ NoDup (map block_id new_blocks ++ map edge_id new_edges)
    /\ (forall i, i ∈ (map block_id new_blocks ++ map edge_id new_edges) ->
          (i ∉ payload_ids bs es) /\ (i ∉ scene_ids (scene w))).

#[global] Instance endpoint_valid_dec bs sd : Decision (endpoint_valid bs sd).
Proof. unfold endpoint_valid. apply _. Defined.

#[global] Instance link_valid_dec bs ed : Decision (link_valid bs ed).
Proof. unfold link_valid. apply _. Defined.

(** ** Well-formed scenes *)

(** Identities are unique within the scene and below the supply, and every
    port refers back to the block that owns it. *)
Definition scene_wf (s : Scene) : Prop :=
  NoDup (scene_ids s)
  /\ Forall (fun i => i < next_id s) (scene_ids s)
  /\ Forall (fun b => Forall (fun sk => socket_block sk = block_id b)
                             (sockets_in b ++ sockets_out b))
            (scene_blocks s).

(** Every selected link joins two ports of selected blocks. *)
Definition selection_closed (s : Scene) : Prop :=
  Forall (fun e =>
            exists b1 b2,
              b1 ∈ (sortedSelectedItems s).1
              /\ source_socket e ∈ sockets_in b1 ++ sockets_out b1
              /\ b2 ∈ (sortedSelectedItems s).1
              /\ destination_socket e ∈ sockets_in b2 ++ sockets_out b2)
         (sortedSelectedItems s).2.

(** ** Concrete scenes *)

Module FilterDefect.

(** One selected block [A]; two selected links that leave it for the
    unselected blocks [B] and [C]. *)
Definition sA := mkSocket 11 1.
Definition sB := mkSocket 21 2.
Definition sC := mkSocket 31 3.
Definition bA := mkBlock 1 0 0 10 10 [] [sA] true.
Definition bB := mkBlock 2 20 0 10 10 [sB] [] false.
Definition bC := mkBlock 3 20 20 10 10 [sC] [] false.
Definition eAB := mkEdge 4 sA sB true.
Definition eAC := mkEdge 5 sA sC true.

Definition the_scene : Scene :=
  mkScene [bA; bB; bC] [eAB; eAC] [] (0, 0)%Q 100.

Definition the_clipboard : SceneClipboard := __init__ the_scene.

End FilterDefect.

Module CutRejected.

(** Two blocks, none selected, and the link between them selected. *)
Definition sA := mkSocket 11 1.
Definition sB := mkSocket 21 2.
Definition bA := mkBlock 1 0 0 10 10 [] [sA] false.
Definition bB := mkBlock 2 20 20 10 10 [sB] [] false.
Definition eAB := mkEdge 3 sA sB true.

Definition the_scene : Scene := mkScene [bA; bB] [eAB] [] (0, 0)%Q 100.
Definition the_clipboard : SceneClipboard := __init__ the_scene.

End CutRejected.

Module EmptySelection.

(** A scene with nothing selected and a clipboard that holds a payload. *)
Definition bA := mkBlock 1 0 0 10 10 [] [] false.
Definition the_scene : Scene := mkScene [bA] [] [] (0, 0)%Q 2.
Definition held : OrderedDict :=
  {| blocks := Some [Block_serialize bA]; edges := Some [] |}.
Definition the_clipboard : SceneClipboard :=
  {| scene := the_scene; objects := Some held; warnings := [] |}.

End EmptySelection.

Module Scenario.

(** The scenario of the spec: two selected blocks of size 10 x 10 at
    (0, 0) and (20, 20), one link between them, pointer at (100, 100). *)
Definition sA := mkSocket 11 1.
Definition sB := mkSocket 21 2.
Definition bA := mkBlock 1 0 0 10 10 [] [sA] true.
Definition bB := mkBlock 2 20 20 10 10 [sB] [] true.
Definition eAB := mkEdge 3 sA sB true.

Definition the_scene : Scene := mkScene [bA; bB] [eAB] [] (100, 100)%Q 100.

Definition after_copy : SceneClipboard := (copy (__init__ the_scene)).2.
Definition after_cut : SceneClipboard := (cut (__init__ the_scene)).2.

End Scenario.

Module ScenarioData.

Definition bdA : BlockData := Block_serialize Scenario.bA.
Definition bdB : BlockData := Block_serialize Scenario.bB.
Definition edAB : EdgeData := Edge_serialize Scenario.eAB.
Definition payload : OrderedDict :=
  {| blocks := Some [bdA; bdB]; edges := Some [edAB] |}.

End ScenarioData.

(** ** The edge filter in closed form *)

(** What the loop of [_serializeSelected] amounts to on distinct edge
    objects: an edge that fails the test is dropped and its successor is
    kept without being tested. *)
Fixpoint skip_filter (selected_sockets : gmap ident Socket)
    (selected_edges : list Edge) : list Edge :=
  match selected_edges with
  | [] => []
  | e :: rest =>
      if not_fully_connected selected_sockets e
      then match rest with
           | [] => []
           | e' :: rest' => e' :: skip_filter selected_sockets rest'
           end
      else e :: skip_filter selected_sockets rest
  end.

(** No edge that fails the test is directly followed by another one that
    fails it. *)
Fixpoint no_adjacent_bad (selected_sockets : gmap ident Socket)
    (selected_edges : list Edge) : Prop :=
  match selected_edges with
  | [] => True
  | e :: rest =>
      match rest with
      | [] => True
      | e' :: _ =>
          (not_fully_connected selected_sockets e = true ->
           not_fully_connected selected_sockets e' = false)
          /\ no_adjacent_bad selected_sockets rest
      end
  end.

(** ** Payloads that differ by a move *)


(** [bd'] has the geometry of [bd] moved by [(dx, dy)], up to equality of
    rationals. *)
Definition moved_by (dx dy : Q) (bd bd' : BlockData) : Prop :=
  (fst (bd_position bd') == fst (bd_position bd) + dx)%Q
  /\ (snd (bd_position bd') == snd (bd_position bd) + dy)%Q
  /\ (bd_width bd' == bd_width bd)%Q
  /\ (bd_height bd' == bd_height bd)%Q.

(** The two sequences hold the same nodes up to the move, in any order and
    any multiplicity. *)
Definition same_nodes_moved (dx dy : Q) (bds bds' : list BlockData) : Prop :=
  (forall bd', bd' ∈ bds' -> exists bd, bd ∈ bds /\ moved_by dx dy bd bd')
  /\ (forall bd, bd ∈ bds -> exists bd', bd' ∈ bds' /\ moved_by dx dy bd bd').

(** Where a node sits and how large it is. *)
Definition block_geometry (b : Block) : Q * Q * Q * Q :=
  (block_x b, block_y b, block_width b, block_height b).

Definition block_size (b : Block) : Q * Q := (block_width b, block_height b).

Module Alternating.

(** Block [A] selected, [B] and [C] not; the selected links, in order:
    [A->B] (dangling), [A->A] (inside the selection), [A->C] (dangling). *)
Definition sA := mkSocket 11 1.
Definition sA' := mkSocket 12 1.
Definition sB := mkSocket 21 2.
Definition sC := mkSocket 31 3.
Definition bA := mkBlock 1 0 0 10 10 [sA'] [sA] true.
Definition bB := mkBlock 2 20 0 10 10 [sB] [] false.
Definition bC := mkBlock 3 20 20 10 10 [sC] [] false.
Definition eAB := mkEdge 4 sA sB true.
Definition eAA := mkEdge 5 sA sA' true.
Definition eAC := mkEdge 6 sA sC true.

Definition the_scene : Scene :=
  mkScene [bA; bB; bC] [eAB; eAA; eAC] [] (0, 0)%Q 100.

End Alternating.

(** * Properties *)

(** ** The edge filter *)

Lemma length_list_remove_first (x : Edge) (l : list Edge) :
  x ∈ l -> S (length (list_remove_first x l)) = length l.
Proof.
  induction l as [|y l IH]; intros Hin.
  - inversion Hin.
  - simpl. destruct (decide (y = x)) as [->|Hne]; [reflexivity|].
    simpl. f_equal. apply IH.
    apply elem_of_cons in Hin as [->|Hin]; [congruence|assumption].
Qed.

(** The iterator always reaches the end of the list: one round per element
    of the initial list is enough. *)
Lemma filter_edges_loop_terminates fuel sel i (l : list Edge) :
  (length l <= fuel + i)%nat -> is_Some (filter_edges_loop fuel sel i l).
Proof.
  revert i l. induction fuel as [|fuel IH]; intros i l Hlen; simpl.
  - destruct (l !! i) as [edge|] eqn:Hi; [|eauto].
    apply lookup_lt_Some in Hi. lia.
  - destruct (l !! i) as [edge|] eqn:Hi; [|eauto].
    destruct (not_fully_connected sel edge).
    + apply IH.
      pose proof (length_list_remove_first edge l) as Hrm.
      assert (edge ∈ l) as Hin by (eapply list_elem_of_lookup_2; eassumption).
      specialize (Hrm Hin). lia.
    + apply IH. lia.
Qed.

Lemma filter_edges_terminates sel (l : list Edge) :
  filter_edges_loop (length l) sel 0 l = Some (filter_edges sel l).
Proof.
  unfold filter_edges.
  destruct (filter_edges_loop_terminates (length l) sel 0 l) as [r Hr]; [lia|].
  rewrite Hr. reflexivity.
Qed.

(** Removing the current element shifts its successor under the iterator:
    of two neighbours that both fail the test, the second one stays. *)
Lemma filter_edges_skips_neighbour sel (e1 e2 : Edge) :
  e1 <> e2 ->
  not_fully_connected sel e1 = true ->
  filter_edges sel [e1; e2] = [e2].
Proof.
  intros Hne H1. unfold filter_edges. simpl. rewrite H1. simpl.
  destruct (decide (e1 = e1)); [reflexivity|congruence].
Qed.

(** When nothing has to be removed the loop leaves the list as it is. *)
Lemma filter_edges_loop_keeps sel (l : list Edge) :
  Forall (fun e => not_fully_connected sel e = false) l ->
  forall fuel i, (length l <= fuel + i)%nat ->
  filter_edges_loop fuel sel i l = Some l.
Proof.
  intros Hall fuel. induction fuel as [|fuel IH]; intros i Hlen; simpl.
  - destruct (l !! i) as [edge|] eqn:Hi; [|reflexivity].
    apply lookup_lt_Some in Hi. lia.
  - destruct (l !! i) as [edge|] eqn:Hi; [|reflexivity].
    assert (not_fully_connected sel edge = false) as ->.
    { eapply Forall_forall in Hall; [exact Hall|].
      eapply list_elem_of_lookup_2. exact Hi. }
    apply IH. lia.
Qed.

Lemma filter_edges_keeps sel (l : list Edge) :
  Forall (fun e => not_fully_connected sel e = false) l ->
  filter_edges sel l = l.
Proof.
  intros Hall. unfold filter_edges.
  rewrite (filter_edges_loop_keeps sel l Hall); [reflexivity|lia].
Qed.

(** The keys of [selected_sockets] are the identities of the ports of the
    selected blocks. *)
Lemma gather_block_sockets_lookup (sockets : list Socket) :
  forall (acc : gmap ident Socket) k,
  is_Some (fold_left (fun acc socket => <[socket_id socket := socket]> acc)
                     sockets acc !! k)
  <-> k ∈ map socket_id sockets \/ is_Some (acc !! k).
Proof.
  induction sockets as [|s sockets IH]; intros acc k; cbn [fold_left map].
  - split; [auto|]. intros [Hin|Hacc]; [inversion Hin|exact Hacc].
  - rewrite IH. rewrite elem_of_cons.
    destruct (decide (k = socket_id s)) as [->|Hne].
    + rewrite lookup_insert_eq. split; [auto|]. intros _. right. eauto.
    + rewrite lookup_insert_ne by congruence. tauto.
Qed.

Lemma payload_socket_ids_serialize_cons (b : Block) (bl : list Block) :
  payload_socket_ids (map Block_serialize (b :: bl))
  = map socket_id (sockets_in b ++ sockets_out b)
    ++ payload_socket_ids (map Block_serialize bl).
Proof.
  unfold payload_socket_ids. cbn [map concat]. f_equal.
  cbn [Block_serialize bd_sockets_in bd_sockets_out].
  rewrite <- map_app, map_map. reflexivity.
Qed.

Lemma gather_sockets_lookup_acc (selected_blocks : list Block) :
  forall (acc : gmap ident Socket) k,
  is_Some (fold_left
             (fun acc block =>
                fold_left (fun acc socket => <[socket_id socket := socket]> acc)
                          (sockets_in block ++ sockets_out block) acc)
             selected_blocks acc !! k)
  <-> k ∈ payload_socket_ids (map Block_serialize selected_blocks)
      \/ is_Some (acc !! k).
Proof.
  induction selected_blocks as [|b bl IH]; intros acc k; cbn [fold_left].
  - split; [auto|]. intros [Hin|Hacc]; [inversion Hin|exact Hacc].
  - rewrite IH, gather_block_sockets_lookup.
    rewrite payload_socket_ids_serialize_cons, elem_of_app. tauto.
Qed.

Lemma gather_sockets_lookup (selected_blocks : list Block) k :
  is_Some (gather_sockets selected_blocks !! k)
  <-> k ∈ payload_socket_ids (map Block_serialize selected_blocks).
Proof.
  unfold gather_sockets. rewrite gather_sockets_lookup_acc.
  rewrite lookup_empty. split; [|auto].
  intros [Hin|[x Hx]]; [exact Hin|discriminate Hx].
Qed.

(** The filter the spec asks for is sound on every selection: every link it
    retains has both its ports among the ports of the selected nodes. *)
Lemma filter_edges_spec_sound (selected_blocks : list Block) (selected_edges : list Edge) :
  payload_closed
    {| blocks := Some (map Block_serialize selected_blocks);
       edges := Some (map Edge_serialize
                  (filter_edges_spec (gather_sockets selected_blocks) selected_edges)) |}.
Proof.
  unfold payload_closed. cbn [blocks edges].
  apply Forall_forall. intros ed Hed.
  apply list_elem_of_fmap in Hed as (e & -> & He).
  unfold filter_edges_spec in He. apply list_elem_of_In, filter_In in He as [_ Hok].
  apply negb_true_iff in Hok. unfold not_fully_connected in Hok.
  apply orb_false_iff in Hok as [Hsrc Hdst].
  apply bool_decide_eq_false in Hsrc, Hdst.
  split; apply gather_sockets_lookup; cbn [Edge_serialize ed_source_socket
    ed_destination_socket Socket_serialize sd_id];
    [destruct (gather_sockets selected_blocks !! socket_id (source_socket e))
    |destruct (gather_sockets selected_blocks !! socket_id (destination_socket e))];
    eauto; contradiction.
Qed.

Lemma filter_edges_spec_keeps sel (l : list Edge) :
  Forall (fun e => not_fully_connected sel e = false) l ->
  filter_edges_spec sel l = l.
Proof.
  unfold filter_edges_spec. induction 1 as [|e l He Hl IH]; cbn [List.filter].
  - reflexivity.
  - rewrite He. cbn [negb]. f_equal. exact IH.
Qed.

(** On a selection whose links all join selected ports the code and the
    spec agree, and the payload is closed. *)
Lemma snapshot_closed_when_nothing_to_filter (s : Scene) :
  Forall (fun e => not_fully_connected
                     (gather_sockets (sortedSelectedItems s).1) e = false)
         (sortedSelectedItems s).2 ->
  payload_closed (snapshot_of s).
Proof.
  intros Hall. unfold snapshot_of.
  rewrite (filter_edges_keeps _ _ Hall).
  rewrite <- (filter_edges_spec_keeps _ _ Hall) at 1.
  apply filter_edges_spec_sound.
Qed.

(** C1 (fails on the code). With block [A] selected and the two links
    [A->B], [A->C] selected, neither link is fully connected to the selected
    ports, yet the snapshot keeps [A->C]: the payload's [edges] hold a link
    whose destination port belongs to the unselected block [C], which is no
    node of the payload. The new-sequence filter of the spec keeps none of
    the two. *)
Theorem snapshot_admits_dangling_edge :
  let w := FilterDefect.the_clipboard in
  let d := {| blocks := Some [Block_serialize FilterDefect.bA];
              edges := Some [Edge_serialize FilterDefect.eAC] |} in
  (_serializeSelected false w).1 = Return d
  /\ objects (copy w).2 = Some d
  /\ ~ payload_closed d
  /\ sd_block (ed_destination_socket (Edge_serialize FilterDefect.eAC))
     = block_id FilterDefect.bC
  /\ filter_edges_spec (gather_sockets [FilterDefect.bA])
       [FilterDefect.eAB; FilterDefect.eAC] = [].
Proof.
  cbv zeta.
  split; [vm_compute; reflexivity|].
  split; [vm_compute; reflexivity|].
  split; [|split; [reflexivity|vm_compute; reflexivity]].
  unfold payload_closed. cbn [blocks edges]. intros HF.
  apply Forall_cons in HF as [[_ Hdst] _].
  cbn in Hdst. apply list_elem_of_singleton in Hdst. discriminate Hdst.
Qed.

(** ** Cut, copy and the store *)

Lemma _serializeSelected_copy w :
  _serializeSelected false w = (Return (snapshot_of (scene w)), w).
Proof. reflexivity. Qed.

Lemma _serializeSelected_cut w :
  _serializeSelected true w
  = (Return (snapshot_of (scene w)), with_scene (deleteSelected (scene w)) w).
Proof. reflexivity. Qed.

Lemma _store_run data w : _store data w = (Return tt, with_objects (stored data) w).
Proof.
  unfold _store, stored. destruct (blocks data) as [[|b bs]|]; reflexivity.
Qed.

Lemma stored_valid data : store_valid (stored data).
Proof.
  unfold stored. destruct (blocks data) as [[|b bs]|] eqn:Hb; simpl; eauto.
Qed.

(** C3. [_store] on a payload without nodes leaves the store absent, on a
    payload with at least one node it leaves exactly that payload; so what
    [_store] leaves is never a payload with zero nodes. *)
Theorem store_nonempty_invariant (data : OrderedDict) (w : SceneClipboard) :
  (_store data w).1 = Return tt
  /\ objects (_store data w).2
     = match blocks data with
       | Some (_ :: _) => Some data
       | Some [] | None => None
       end
  /\ store_valid (objects (_store data w).2)
  /\ scene (_store data w).2 = scene w.
Proof.
  rewrite _store_run. simpl.
  split; [reflexivity|]. split; [|split; [apply stored_valid|reflexivity]].
  unfold stored. destruct (blocks data) as [[|b bs]|]; reflexivity.
Qed.

(** C2 as the spec words it fails: with only a link selected the payload has
    no node and the store rejects it, and the cut has deleted the link all
    the same. *)
Lemma cut_rejected_payload_still_deletes :
  let w := CutRejected.the_clipboard in
  objects (cut w).2 = None
  /\ scene_edges (scene w) = [CutRejected.eAB]
  /\ scene_edges (scene (cut w).2) = []
  /\ scene (cut w).2 <> scene w.
Proof.
  split; [vm_compute; reflexivity|].
  split; [reflexivity|].
  split; [vm_compute; reflexivity|].
  intros Heq. apply (f_equal scene_edges) in Heq. vm_compute in Heq.
  discriminate Heq.
Qed.

Lemma cut_final_state (w : SceneClipboard) :
  scene (cut w).2 = deleteSelected (scene w)
  /\ objects (cut w).2 = stored (snapshot_of (scene w)).
Proof.
  unfold cut, bind. rewrite _serializeSelected_cut, _store_run.
  split; reflexivity.
Qed.

(** C2 (amended). [cut] is: take the snapshot of the selection, delete the
    selected items from the scene, then store the payload. The deletion does
    not depend on what the store does with the payload, and the store ends
    up as after a [copy] of the same selection. *)
Theorem cut_snapshots_deletes_then_stores (w : SceneClipboard) :
  cut w = (data <- _serializeSelected false ;;
           modify_scene deleteSelected ;;;
           _store data) w
  /\ (cut w).1 = Return tt
  /\ scene (cut w).2 = deleteSelected (scene w)
  /\ objects (cut w).2 = stored (snapshot_of (scene w))
  /\ objects (cut w).2 = objects (copy w).2.
Proof.
  unfold cut, copy, bind.
  rewrite _serializeSelected_cut, _serializeSelected_copy. simpl.
  rewrite !_store_run. simpl.
  split; [reflexivity|]. split; [reflexivity|]. split; [reflexivity|].
  split; reflexivity.
Qed.

(** C9. [copy] leaves the scene as it was: same nodes, same links, same
    selection (and same history and identity supply); only the store
    changes. *)
Theorem copy_preserves_scene (w : SceneClipboard) :
  (copy w).1 = Return tt
  /\ scene (copy w).2 = scene w
  /\ sortedSelectedItems (scene (copy w).2) = sortedSelectedItems (scene w)
  /\ warnings (copy w).2 = warnings w
  /\ objects (copy w).2 = stored (snapshot_of (scene w)).
Proof.
  unfold copy, bind. rewrite _serializeSelected_copy, _store_run.
  split; [reflexivity|]. split; [reflexivity|]. split; [reflexivity|].
  split; reflexivity.
Qed.

(** C10. With no node selected, [copy] and [cut] leave the store absent,
    whatever it held before. *)
Theorem empty_selection_resets_store (w : SceneClipboard) :
  (sortedSelectedItems (scene w)).1 = [] ->
  objects (copy w).2 = None /\ objects (cut w).2 = None.
Proof.
  intros Hsel. unfold copy, cut, bind.
  rewrite _serializeSelected_copy, _serializeSelected_cut, !_store_run.
  unfold stored, snapshot_of. cbn [snd objects with_objects blocks].
  rewrite Hsel. split; reflexivity.
Qed.

Lemma empty_selection_resets_store_witness :
  objects EmptySelection.the_clipboard = Some EmptySelection.held
  /\ objects (copy EmptySelection.the_clipboard).2 = None
  /\ objects (cut EmptySelection.the_clipboard).2 = None.
Proof.
  split; [reflexivity|].
  apply (empty_selection_resets_store EmptySelection.the_clipboard).
  reflexivity.
Defined.

(** ** Paste and the store *)

(** C7. When the store is absent, [paste] emits the warning and does nothing
    else: the scene (nodes, links, selection, history) is the one before. *)
Theorem paste_absent_warns_only (w : SceneClipboard) :
  objects w = None ->
  paste w = (Return tt,
             {| scene := scene w; objects := None;
                warnings := warnings w ++ ["No object is loaded"%string] |})
  /\ scene (paste w).2 = scene w
  /\ history (scene (paste w).2) = history (scene w).
Proof.
  intros Habs.
  assert (paste w = (Return tt,
             {| scene := scene w; objects := None;
                warnings := warnings w ++ ["No object is loaded"%string] |})) as Hrun.
  { destruct w as [s o ws]. simpl in Habs. subst o. reflexivity. }
  rewrite Hrun. split; [reflexivity|]. split; reflexivity.
Qed.

Lemma paste_absent_warns_only_witness :
  objects CutRejected.the_clipboard = None
  /\ paste CutRejected.the_clipboard
     = (Return tt,
        {| scene := CutRejected.the_scene; objects := None;
           warnings := ["No object is loaded"%string] |}).
Proof.
  split; [reflexivity|].
  exact (proj1 (paste_absent_warns_only CutRejected.the_clipboard eq_refl)).
Defined.

(** *** Frame: what a method leaves alone *)

Create HintDb frame.

Section Keeps.

Context {X : Type} (f : SceneClipboard -> X).

Lemma keeps_ret {A} (a : A) : keeps f (ret a).
Proof. intros w. reflexivity. Qed.

Lemma keeps_raise {A} (e : Exn) : keeps f (@raise A e).
Proof. intros w. reflexivity. Qed.

Lemma keeps_lift {A} (o : outcome A) : keeps f (lift o).
Proof. intros w. reflexivity. Qed.

Lemma keeps_bind {A B} (m : M A) (k : A -> M B) :
  keeps f m -> (forall a, keeps f (k a)) -> keeps f (bind m k).
Proof.
  intros Hm Hk w. unfold bind. specialize (Hm w).
  destruct (m w) as [[a|e] w']; simpl in *.
  - rewrite Hk. exact Hm.
  - exact Hm.
Qed.

Lemma keeps_get_scene : keeps f get_scene.
Proof. intros w. reflexivity. Qed.

Lemma keeps_get_objects : keeps f get_objects.
Proof. intros w. reflexivity. Qed.

Lemma keeps_getitem {A} (v : option A) : keeps f (getitem v).
Proof. destruct v; intros w; reflexivity. Qed.

Lemma keeps_if {A} (b : bool) (m1 m2 : M A) :
  keeps f m1 -> keeps f m2 -> keeps f (if b then m1 else m2).
Proof. destruct b; auto. Qed.

Lemma keeps_for_fold {A S} (l : list A) (body : A -> S -> M S) :
  (forall x acc, keeps f (body x acc)) ->
  forall acc, keeps f (for_fold l acc body).
Proof.
  intros Hbody. induction l as [|x l IH]; intros acc; simpl.
  - apply keeps_ret.
  - apply keeps_bind; [apply Hbody|]. intros acc'. apply IH.
Qed.

Lemma keeps_resolve_socket hm sd : keeps f (resolve_socket hm sd).
Proof.
  unfold resolve_socket.
  destruct (hm !! sd_block sd) as [[]|]; try apply keeps_raise.
  destruct (hm !! sd_id sd) as [[]|]; first [apply keeps_raise|apply keeps_ret].
Qed.

End Keeps.

Lemma keeps_modify_scene f : keeps_objects (modify_scene f).
Proof. intros w. reflexivity. Qed.

Lemma keeps_warn msg : keeps_objects (warn msg).
Proof. intros w. reflexivity. Qed.

Lemma keeps_fresh_id : keeps_objects fresh_id.
Proof. intros w. reflexivity. Qed.

Lemma keeps_blocks_fresh_id : keeps blocks_of fresh_id.
Proof. intros w. reflexivity. Qed.

Lemma keeps_blocks_checkpoint label modified :
  keeps blocks_of (modify_scene (checkpoint label modified)).
Proof. intros w. reflexivity. Qed.

#[export] Hint Resolve keeps_ret keeps_raise keeps_lift keeps_get_scene
  keeps_get_objects keeps_getitem keeps_resolve_socket
  keeps_modify_scene keeps_warn keeps_fresh_id
  keeps_blocks_fresh_id keeps_blocks_checkpoint : frame.

Ltac frame_step :=
  first
    [ solve [auto with frame]
    | apply keeps_bind; [|intros ?]
    | apply keeps_if
    | apply keeps_for_fold; intros ? ? ].

Ltac frame := repeat frame_step.

Lemma keeps_new_id r i : keeps_objects (new_id r i).
Proof. unfold new_id. frame. Qed.

Lemma keeps_blocks_new_id r i : keeps blocks_of (new_id r i).
Proof. unfold new_id. frame. Qed.
#[export] Hint Resolve keeps_new_id keeps_blocks_new_id : frame.

Lemma keeps_create_socket b r sd acc : keeps_objects (create_socket b r sd acc).
Proof. unfold create_socket. frame. Qed.
#[export] Hint Resolve keeps_create_socket : frame.

Lemma keeps_create_block bd hm r : keeps_objects (create_block bd hm r).
Proof. unfold create_block. frame. Qed.
#[export] Hint Resolve keeps_create_block : frame.

Lemma keeps_Edge_deserialize ed hm r : keeps_objects (Edge_deserialize ed hm r).
Proof. unfold Edge_deserialize. frame. Qed.

Lemma keeps_blocks_Edge_deserialize ed hm r :
  keeps blocks_of (Edge_deserialize ed hm r).
Proof. unfold Edge_deserialize. frame. Qed.
#[export] Hint Resolve keeps_Edge_deserialize keeps_blocks_Edge_deserialize : frame.

Lemma keeps_addItem e : keeps_objects (addItem e).
Proof. unfold addItem. frame. Qed.

Lemma keeps_blocks_addItem e : keeps blocks_of (addItem e).
Proof. intros w. reflexivity. Qed.
#[export] Hint Resolve keeps_addItem keeps_blocks_addItem : frame.

Lemma keeps_paste_block sel ox oy bd hm : keeps_objects (paste_block sel ox oy bd hm).
Proof. unfold paste_block. frame. Qed.

Lemma keeps_paste_edge sel ed hm : keeps_objects (paste_edge sel ed hm).
Proof. unfold paste_edge. frame. Qed.

Lemma keeps_blocks_paste_edge sel ed hm : keeps blocks_of (paste_edge sel ed hm).
Proof. unfold paste_edge. frame. Qed.
#[export] Hint Resolve keeps_paste_block keeps_paste_edge keeps_blocks_paste_edge
  : frame.

Lemma keeps__find_bbox_center bs : keeps_objects (_find_bbox_center bs).
Proof. unfold _find_bbox_center. frame. Qed.
#[export] Hint Resolve keeps__find_bbox_center : frame.

Lemma keeps__deserializeData data sel : keeps_objects (_deserializeData data sel).
Proof. unfold _deserializeData. destruct data as [d|]; frame. Qed.

Lemma keeps__gatherData : keeps_objects _gatherData.
Proof.
  unfold _gatherData. frame.
  match goal with o : option OrderedDict |- _ => destruct o end; auto with frame.
Qed.
#[export] Hint Resolve keeps__deserializeData keeps__gatherData : frame.

Lemma keeps_paste : keeps_objects paste.
Proof.
  unfold paste. frame.
  match goal with o : option OrderedDict |- _ => destruct o end; auto with frame.
Qed.

Lemma _gatherData_returns w : (_gatherData w).1 = Return (objects w).
Proof.
  destruct w as [s [d|] ws]; reflexivity.
Qed.

(** C6. Retrieving and pasting leave the store as it is: [_gatherData]
    returns the current content and keeps it, [paste] keeps it whatever
    happens to the scene, so the same content can be pasted again. *)
Theorem paste_keeps_store (w : SceneClipboard) :
  (_gatherData w).1 = Return (objects w)
  /\ objects (_gatherData w).2 = objects w
  /\ scene (_gatherData w).2 = scene w
  /\ objects (paste w).2 = objects w
  /\ objects (paste (paste w).2).2 = objects w.
Proof.
  split; [apply _gatherData_returns|].
  split; [apply keeps__gatherData|].
  split.
  - destruct w as [s [d|] ws]; reflexivity.
  - split; [apply keeps_paste|]. rewrite !keeps_paste. reflexivity.
Qed.

(** ** The bounding box needs a node, and paste always has one *)

Lemma _find_bbox_center_empty w : _find_bbox_center [] w = (Raise ValueError, w).
Proof. reflexivity. Qed.

Lemma _find_bbox_center_nonempty b bs w :
  exists c, _find_bbox_center (b :: bs) w = (Return c, w).
Proof. eexists. reflexivity. Qed.

Create HintDb noraise.

Section NeverRaises.

Variable e : Exn.

Lemma nr_ret {A} (a : A) : never_raises e (ret a).
Proof. intros w. discriminate. Qed.

Lemma nr_bind {A B} (m : M A) (k : A -> M B) :
  never_raises e m -> (forall a, never_raises e (k a)) -> never_raises e (bind m k).
Proof.
  intros Hm Hk w. unfold bind. specialize (Hm w).
  destruct (m w) as [[a|e'] w']; simpl in *; [apply Hk|].
  intros Heq. apply Hm. congruence.
Qed.

Lemma nr_get_scene : never_raises e get_scene.
Proof. intros w. discriminate. Qed.

Lemma nr_modify_scene f : never_raises e (modify_scene f).
Proof. intros w. discriminate. Qed.

Lemma nr_fresh_id : never_raises e fresh_id.
Proof. intros w. discriminate. Qed.

Lemma nr_if {A} (b : bool) (m1 m2 : M A) :
  never_raises e m1 -> never_raises e m2 -> never_raises e (if b then m1 else m2).
Proof. destruct b; auto. Qed.

Lemma nr_for_fold {A S} (l : list A) (body : A -> S -> M S) :
  (forall x acc, never_raises e (body x acc)) ->
  forall acc, never_raises e (for_fold l acc body).
Proof.
  intros Hbody. induction l as [|x l IH]; intros acc; simpl.
  - apply nr_ret.
  - apply nr_bind; [apply Hbody|]. intros acc'. apply IH.
Qed.

End NeverRaises.

Lemma nr_raise_other {A} (e e' : Exn) : e <> e' -> never_raises e (@raise A e').
Proof. intros Hne w Heq. simpl in Heq. congruence. Qed.

Lemma nr_getitem {A} (v : option A) : never_raises ValueError (getitem v).
Proof. destruct v; [apply nr_ret|apply nr_raise_other; discriminate]. Qed.

#[export] Hint Resolve nr_ret nr_get_scene nr_modify_scene nr_fresh_id nr_getitem
  : noraise.

Lemma nr_bind_ret {A B} (e : Exn) (a : A) (k : A -> M B) :
  never_raises e (k a) -> never_raises e (bind (ret a) k).
Proof. intros Hk w. apply Hk. Qed.

Ltac noraise_step :=
  first
    [ solve [auto with noraise]
    | match goal with
      | |- never_raises _ (bind (ret _) _) => apply nr_bind_ret
      end
    | apply nr_bind; [|intros ?]
    | apply nr_if
    | apply nr_for_fold; intros ? ? ].

Ltac noraise := repeat noraise_step.

Lemma nr_new_id r i : never_raises ValueError (new_id r i).
Proof. unfold new_id. noraise. Qed.
#[export] Hint Resolve nr_new_id : noraise.

Lemma nr_create_socket b r sd acc :
  never_raises ValueError (create_socket b r sd acc).
Proof. unfold create_socket. noraise. Qed.
#[export] Hint Resolve nr_create_socket : noraise.

Lemma nr_create_block bd hm r : never_raises ValueError (create_block bd hm r).
Proof. unfold create_block. noraise. Qed.
#[export] Hint Resolve nr_create_block : noraise.

Lemma nr_resolve_socket hm sd : never_raises ValueError (resolve_socket hm sd).
Proof.
  unfold resolve_socket.
  destruct (hm !! sd_block sd) as [[]|]; try (apply nr_raise_other; discriminate).
  destruct (hm !! sd_id sd) as [[]|]; try (apply nr_raise_other; discriminate).
  apply nr_ret.
Qed.
#[export] Hint Resolve nr_resolve_socket : noraise.

Lemma nr_paste_block sel ox oy bd hm :
  never_raises ValueError (paste_block sel ox oy bd hm).
Proof. unfold paste_block. noraise. Qed.

Lemma nr_paste_edge sel ed hm : never_raises ValueError (paste_edge sel ed hm).
Proof. unfold paste_edge, Edge_deserialize, addItem. noraise. Qed.
#[export] Hint Resolve nr_paste_block nr_paste_edge : noraise.

Lemma nr__find_bbox_center b bs :
  never_raises ValueError (_find_bbox_center (b :: bs)).
Proof. intros w. discriminate. Qed.
#[export] Hint Resolve nr__find_bbox_center : noraise.

Lemma nr__deserializeData d sel :
  store_valid (Some d) -> never_raises ValueError (_deserializeData (Some d) sel).
Proof.
  intros (b & bs & Hb). unfold _deserializeData. rewrite Hb.
  cbn [getitem]. noraise.
Qed.

Lemma reachable_store_valid w : reachable w -> store_valid (objects w).
Proof.
  induction 1 as [s|w Hw IH|w Hw IH|w Hw IH|w s Hw IH].
  - exact I.
  - destruct (cut_final_state w) as [_ Ho].
    rewrite Ho. apply stored_valid.
  - unfold copy, bind. rewrite _serializeSelected_copy, _store_run.
    apply stored_valid.
  - rewrite keeps_paste. exact IH.
  - exact IH.
Qed.

(** C8. [_find_bbox_center] raises on an empty sequence and returns on any
    other; in every state the clipboard can reach, the store is absent or
    holds a payload with at least one block, so the call made by [paste]
    gets a non-empty sequence and [paste] does not raise [ValueError]. *)
Theorem paste_bbox_never_empty (w : SceneClipboard) :
  reachable w ->
  (forall w', (_find_bbox_center [] w').1 = Raise ValueError)
  /\ (forall b bs w', exists c, _find_bbox_center (b :: bs) w' = (Return c, w'))
  /\ match objects w with
     | None => True
     | Some d => exists b bs, blocks d = Some (b :: bs)
     end
  /\ (paste w).1 <> Raise ValueError.
Proof.
  intros Hreach.
  split; [intros w'; reflexivity|].
  split; [intros b bs w'; apply _find_bbox_center_nonempty|].
  pose proof (reachable_store_valid w Hreach) as Hvalid.
  split; [exact Hvalid|].
  unfold paste, bind.
  pose proof (_gatherData_returns w) as Hret.
  pose proof (keeps__gatherData w) as Hkeep.
  destruct (_gatherData w) as [[o|e] w1]; simpl in Hret, Hkeep; [|discriminate Hret].
  injection Hret as ->.
  destruct (objects w) as [d|] eqn:Hd; [|discriminate].
  apply nr__deserializeData. exact Hvalid.
Qed.

Lemma paste_bbox_never_empty_witness :
  reachable Scenario.after_cut
  /\ (paste Scenario.after_cut).1 <> Raise ValueError.
Proof.
  assert (Hreach : reachable Scenario.after_cut)
    by (apply reach_cut; apply reach_init).
  split; [exact Hreach|].
  apply (paste_bbox_never_empty Scenario.after_cut Hreach).
Defined.

(** ** What a paste builds

    The loops of [_deserializeData] are run once and for all: each one is
    shown equal to a closed description of the state it leaves. *)

Lemma bind_return {A B} (m : M A) (k : A -> M B) w a w' :
  m w = (Return a, w') -> bind m k w = k a w'.
Proof. intros Hm. unfold bind. rewrite Hm. reflexivity. Qed.

Lemma create_sockets_run i sds : forall acc hm B E H mp n o ws,
  for_fold sds (acc, hm) (create_socket i false)
    (mkClipboard (mkScene B E H mp n) o ws)
  = (Return (acc ++ new_sockets i n sds, bind_sockets i n sds hm),
     mkClipboard (mkScene B E H mp (n + Z.of_nat (length sds))) o ws).
Proof.
  induction sds as [|sd sds IH]; intros acc hm B E H mp n o ws.
  - simpl. rewrite app_nil_r, Z.add_0_r. reflexivity.
  - cbn [for_fold].
    erewrite bind_return; [|reflexivity].
    cbn [fst snd scene next_id scene_blocks scene_edges history lastMousePos
         objects warnings].
    rewrite IH. cbn [new_sockets bind_sockets length].
    rewrite <- app_assoc. cbn [app].
    replace (n + 1 + Z.of_nat (length sds)) with (n + Z.of_nat (S (length sds)))
      by lia.
    reflexivity.
Qed.

Lemma create_block_run bd hm B E H mp n o ws :
  create_block bd hm false (mkClipboard (mkScene B E H mp n) o ws)
  = (Return (length B, rebind_block n (length B) bd hm),
     mkClipboard (mkScene (B ++ [built_block n bd]) E H mp (n + ids_used bd)) o ws).
Proof.
  unfold create_block.
  erewrite bind_return; [|reflexivity].
  cbn [scene next_id scene_blocks scene_edges history lastMousePos objects warnings].
  erewrite bind_return; [|apply create_sockets_run].
  erewrite bind_return; [|apply create_sockets_run].
  erewrite bind_return; [|reflexivity].
  erewrite bind_return; [|reflexivity].
  unfold ret, rebind_block, built_block, ids_used.
  cbn [fst snd scene next_id scene_blocks scene_edges history lastMousePos
       objects warnings add_block app].
  replace (n + 1 + Z.of_nat (length (bd_sockets_in bd))
             + Z.of_nat (length (bd_sockets_out bd)))
    with (n + (1 + Z.of_nat (length (bd_sockets_in bd))
                 + Z.of_nat (length (bd_sockets_out bd)))) by lia.
  reflexivity.
Qed.

Lemma alter_last {A} (f : A -> A) (l : list A) (x : A) :
  alter f (length l) (l ++ [x]) = l ++ [f x].
Proof. induction l as [|y l IH]; simpl; [reflexivity|]. f_equal. exact IH. Qed.

Lemma paste_block_run sel ox oy bd hm B E H mp n o ws :
  paste_block sel ox oy bd hm (mkClipboard (mkScene B E H mp n) o ws)
  = (Return (rebind_block n (length B) bd hm),
     mkClipboard
       (mkScene (B ++ [placed sel ox oy (built_block n bd)]) E H mp (n + ids_used bd))
       o ws).
Proof.
  unfold paste_block.
  erewrite bind_return; [|apply create_block_run].
  cbn [fst snd]. destruct sel.
  - erewrite bind_return; [|reflexivity].
    erewrite bind_return; [|reflexivity].
    unfold ret, update_block, placed.
    cbn [scene next_id scene_blocks scene_edges history lastMousePos objects warnings].
    rewrite !alter_last. reflexivity.
  - erewrite bind_return; [|reflexivity].
    erewrite bind_return; [|reflexivity].
    unfold ret, update_block, placed.
    cbn [scene next_id scene_blocks scene_edges history lastMousePos objects warnings].
    rewrite !alter_last. reflexivity.
Qed.

Lemma paste_blocks_run sel ox oy bds : forall hm B E H mp n o ws,
  for_fold bds hm (paste_block sel ox oy) (mkClipboard (mkScene B E H mp n) o ws)
  = (Return (rebind_blocks n (length B) bds hm),
     mkClipboard
       (mkScene (B ++ pasted_blocks sel ox oy n bds) E H mp (n + ids_total bds))
       o ws).
Proof.
  induction bds as [|bd bds IH]; intros hm B E H mp n o ws.
  - simpl. rewrite app_nil_r, Z.add_0_r. reflexivity.
  - cbn [for_fold].
    erewrite bind_return; [|apply paste_block_run].
    rewrite IH. cbn [pasted_blocks rebind_blocks ids_total].
    rewrite <- app_assoc. cbn [app].
    rewrite length_app. cbn [length]. rewrite Nat.add_1_r.
    replace (n + ids_used bd + ids_total bds) with (n + (ids_used bd + ids_total bds))
      by lia.
    reflexivity.
Qed.

(** *** The bounding box *)

Lemma Qlt_bool_true x y : Qlt_bool x y = true -> (x < y)%Q.
Proof.
  unfold Qlt_bool. intros Hb. apply negb_true_iff in Hb.
  apply Qnot_le_lt. intros Hle. apply Qle_bool_iff in Hle. congruence.
Qed.

Lemma Qlt_bool_false x y : Qlt_bool x y = false -> (y <= x)%Q.
Proof.
  unfold Qlt_bool. intros Hb. apply negb_false_iff in Hb.
  apply Qle_bool_iff. exact Hb.
Qed.

Lemma min_of_is_min l : forall x, is_min (min_of x l) (x :: l).
Proof.
  induction l as [|y l IH]; intros x.
  - split; [apply list_elem_of_here|].
    intros z Hz. apply list_elem_of_singleton in Hz as ->. apply Qle_refl.
  - unfold min_of. cbn [fold_left]. fold (min_of (if Qlt_bool y x then y else x) l).
    destruct (IH (if Qlt_bool y x then y else x)) as [Hin Hle].
    assert ((if Qlt_bool y x then y else x) <= x
            /\ (if Qlt_bool y x then y else x) <= y)%Q as [Hx Hy].
    { destruct (Qlt_bool y x) eqn:Hb.
      - split; [apply Qlt_le_weak, Qlt_bool_true, Hb|apply Qle_refl].
      - split; [apply Qle_refl|apply Qlt_bool_false, Hb]. }
    split.
    + apply elem_of_cons in Hin as [Heq|Hin].
      * rewrite Heq. destruct (Qlt_bool y x); set_solver.
      * set_solver.
    + intros z Hz.
      apply elem_of_cons in Hz as [->|Hz].
      * eapply Qle_trans; [|exact Hx]. apply Hle. apply list_elem_of_here.
      * apply elem_of_cons in Hz as [->|Hz].
        -- eapply Qle_trans; [|exact Hy]. apply Hle. apply list_elem_of_here.
        -- apply Hle. apply list_elem_of_further. exact Hz.
Qed.

Lemma max_of_is_max l : forall x, is_max (max_of x l) (x :: l).
Proof.
  induction l as [|y l IH]; intros x.
  - split; [apply list_elem_of_here|].
    intros z Hz. apply list_elem_of_singleton in Hz as ->. apply Qle_refl.
  - unfold max_of. cbn [fold_left]. fold (max_of (if Qlt_bool x y then y else x) l).
    destruct (IH (if Qlt_bool x y then y else x)) as [Hin Hle].
    assert (x <= (if Qlt_bool x y then y else x)
            /\ y <= (if Qlt_bool x y then y else x))%Q as [Hx Hy].
    { destruct (Qlt_bool x y) eqn:Hb.
      - split; [apply Qlt_le_weak, Qlt_bool_true, Hb|apply Qle_refl].
      - split; [apply Qle_refl|apply Qlt_bool_false, Hb]. }
    split.
    + apply elem_of_cons in Hin as [Heq|Hin].
      * rewrite Heq. destruct (Qlt_bool x y); set_solver.
      * set_solver.
    + intros z Hz.
      apply elem_of_cons in Hz as [->|Hz].
      * eapply Qle_trans; [exact Hx|]. apply Hle. apply list_elem_of_here.
      * apply elem_of_cons in Hz as [->|Hz].
        -- eapply Qle_trans; [exact Hy|]. apply Hle. apply list_elem_of_here.
        -- apply Hle. apply list_elem_of_further. exact Hz.
Qed.

Lemma _find_bbox_center_run b bs w :
  _find_bbox_center (b :: bs) w = (Return (bbox_center b bs), w).
Proof. reflexivity. Qed.

Lemma bbox_bounds b bs :
  bounding_box (b :: bs) (bbox_xmin b bs) (bbox_xmax b bs)
               (bbox_ymin b bs) (bbox_ymax b bs).
Proof.
  unfold bounding_box, bbox_xmin, bbox_xmax, bbox_ymin, bbox_ymax. cbn [map].
  split; [apply min_of_is_min|]. split; [apply max_of_is_max|].
  split; [apply min_of_is_min|apply max_of_is_max].
Qed.

(** *** The two phases of [_deserializeData] *)

Lemma _deserializeData_blocks_phase d sel b bs w :
  blocks d = Some (b :: bs) ->
  _deserializeData (Some d) sel w
  = paste_edges_phase sel d
      (rebind_blocks (next_id (scene w))
         (length (scene_blocks (scene w))) (b :: bs) ∅)
      (blocks_pasted sel b bs w).
Proof.
  intros Hb. destruct w as [[B E H mp n] o ws].
  unfold _deserializeData. rewrite Hb.
  erewrite bind_return; [|reflexivity].
  destruct sel.
  - erewrite bind_return; [|reflexivity].
    erewrite bind_return; [|reflexivity].
    erewrite bind_return; [|apply _find_bbox_center_run].
    erewrite bind_return; [|apply paste_blocks_run].
    unfold blocks_pasted, offset_for.
    cbn [scene next_id scene_blocks scene_edges history lastMousePos objects
         warnings clearSelection].
    rewrite length_map. reflexivity.
  - erewrite bind_return; [|reflexivity].
    erewrite bind_return; [|reflexivity].
    erewrite bind_return; [|apply _find_bbox_center_run].
    erewrite bind_return; [|apply paste_blocks_run].
    reflexivity.
Qed.


Lemma paste_stored w d :
  objects w = Some d -> paste w = _deserializeData (Some d) true w.
Proof.
  intros Ho. destruct w as [s o ws]. simpl in Ho. subst o. reflexivity.
Qed.




(** The scenario of the spec, run: after the cut the scene is empty and the
    store holds two blocks and one edge; the paste at (100, 100) puts the new
    nodes at (85, 85) and (105, 105) and links them. *)
Example scenario_cut_then_paste :
  let w := (paste Scenario.after_cut).2 in
  scene_blocks (scene Scenario.after_cut) = []
  /\ scene_edges (scene Scenario.after_cut) = []
  /\ map (fun b => (Qred (block_x b), Qred (block_y b))) (scene_blocks (scene w))
     = [(85, 85)%Q; (105, 105)%Q]
  /\ map block_id (scene_blocks (scene w)) = [100; 102]
  /\ scene_edges (scene w) = [mkEdge 104 (mkSocket 101 100) (mkSocket 103 102) true]
  /\ objects w = objects Scenario.after_cut.
Proof.
  vm_compute. repeat split; reflexivity.
Qed.

(** ** The rebinding map *)

Lemma bind_sockets_lookup_notin b sds : forall n (hm : gmap ident Item) k,
  k ∉ map sd_id sds -> bind_sockets b n sds hm !! k = hm !! k.
Proof.
  induction sds as [|sd sds IH]; intros n hm k Hk; cbn [bind_sockets]; [reflexivity|].
  cbn [map] in Hk. apply not_elem_of_cons in Hk as [Hne Hk].
  rewrite IH by exact Hk. apply lookup_insert_ne. congruence.
Qed.

Lemma bind_sockets_lookup_in b sds : forall n (hm : gmap ident Item) k,
  k ∈ map sd_id sds -> is_socket_item (bind_sockets b n sds hm) k.
Proof.
  induction sds as [|sd sds IH]; intros n hm k Hk; cbn [bind_sockets].
  - inversion Hk.
  - destruct (decide (k ∈ map sd_id sds)) as [Hin|Hnotin].
    + apply IH. exact Hin.
    + cbn [map] in Hk. apply elem_of_cons in Hk as [->|Hk]; [|contradiction].
      eexists. rewrite bind_sockets_lookup_notin by exact Hnotin.
      apply lookup_insert_eq.
Qed.

Lemma rebind_block_lookup_notin n h bd (hm : gmap ident Item) k :
  k ∉ block_data_ids bd -> rebind_block n h bd hm !! k = hm !! k.
Proof.
  unfold block_data_ids, rebind_block. intros Hk.
  apply not_elem_of_cons in Hk as [Hne Hk].
  rewrite map_app in Hk. apply not_elem_of_app in Hk as [Hin Hout].
  rewrite lookup_insert_ne by congruence.
  rewrite !bind_sockets_lookup_notin by assumption. reflexivity.
Qed.

Lemma rebind_block_lookup_block n h bd (hm : gmap ident Item) :
  rebind_block n h bd hm !! bd_id bd = Some (ItemBlock h).
Proof. unfold rebind_block. apply lookup_insert_eq. Qed.

Lemma rebind_block_lookup_socket n h bd (hm : gmap ident Item) k :
  k ∈ map sd_id (bd_sockets_in bd ++ bd_sockets_out bd) ->
  k <> bd_id bd ->
  is_socket_item (rebind_block n h bd hm) k.
Proof.
  intros Hk Hne. unfold rebind_block, is_socket_item.
  rewrite lookup_insert_ne by congruence.
  destruct (decide (k ∈ map sd_id (bd_sockets_out bd))) as [Hout|Hout].
  - apply bind_sockets_lookup_in. exact Hout.
  - rewrite bind_sockets_lookup_notin by exact Hout.
    apply bind_sockets_lookup_in.
    rewrite map_app in Hk. apply elem_of_app in Hk as [Hin|Hin]; [exact Hin|contradiction].
Qed.

Lemma rebind_blocks_lookup_notin bds : forall n h (hm : gmap ident Item) k,
  k ∉ payload_node_ids bds -> rebind_blocks n h bds hm !! k = hm !! k.
Proof.
  induction bds as [|bd bds IH]; intros n h hm k Hk; cbn [rebind_blocks]; [reflexivity|].
  unfold payload_node_ids in Hk. cbn [map concat] in Hk.
  apply not_elem_of_app in Hk as [Hbd Hrest].
  rewrite IH by exact Hrest. apply rebind_block_lookup_notin. exact Hbd.
Qed.

Lemma payload_node_ids_cons bd bds :
  payload_node_ids (bd :: bds) = block_data_ids bd ++ payload_node_ids bds.
Proof. reflexivity. Qed.

Lemma payload_socket_ids_cons bd bds :
  payload_socket_ids (bd :: bds)
  = map sd_id (bd_sockets_in bd ++ bd_sockets_out bd) ++ payload_socket_ids bds.
Proof. reflexivity. Qed.

Lemma rebind_blocks_lookup_block bds : forall n h (hm : gmap ident Item) k,
  NoDup (payload_node_ids bds) ->
  k ∈ map bd_id bds ->
  is_block_item (rebind_blocks n h bds hm) k.
Proof.
  induction bds as [|bd bds IH]; intros n h hm k Hnd Hk; cbn [rebind_blocks].
  - inversion Hk.
  - rewrite payload_node_ids_cons in Hnd.
    apply NoDup_app in Hnd as (Hbd & Hdisj & Hrest).
    cbn [map] in Hk. apply elem_of_cons in Hk as [->|Hk].
    + exists h. rewrite rebind_blocks_lookup_notin.
      * apply rebind_block_lookup_block.
      * apply Hdisj. apply list_elem_of_here.
    + apply IH; assumption.
Qed.

Lemma rebind_blocks_lookup_socket bds : forall n h (hm : gmap ident Item) k,
  NoDup (payload_node_ids bds) ->
  k ∈ payload_socket_ids bds ->
  is_socket_item (rebind_blocks n h bds hm) k.
Proof.
  induction bds as [|bd bds IH]; intros n h hm k Hnd Hk; cbn [rebind_blocks].
  - inversion Hk.
  - rewrite payload_node_ids_cons in Hnd.
    apply NoDup_app in Hnd as (Hbd & Hdisj & Hrest).
    rewrite payload_socket_ids_cons in Hk. apply elem_of_app in Hk as [Hk|Hk].
    + unfold is_socket_item. rewrite rebind_blocks_lookup_notin.
      * apply rebind_block_lookup_socket; [exact Hk|].
        unfold block_data_ids in Hbd. apply NoDup_cons in Hbd as [Hnotin _].
        intros ->. contradiction.
      * apply Hdisj. unfold block_data_ids. apply list_elem_of_further. exact Hk.
    + apply IH; assumption.
Qed.

(** *** Links resolve through the rebinding map *)

Lemma resolves_insert (hm : gmap ident Item) k v sd :
  k <> sd_block sd -> k <> sd_id sd ->
  resolves hm sd -> resolves (<[k := v]> hm) sd.
Proof.
  intros Hb Hs [[h Hh] [s Hsock]]. split.
  - exists h. rewrite lookup_insert_ne; assumption.
  - exists s. rewrite lookup_insert_ne; assumption.
Qed.

Lemma edge_resolves_insert (hm : gmap ident Item) k v ed :
  k ∉ endpoint_keys ed -> edge_resolves hm ed -> edge_resolves (<[k := v]> hm) ed.
Proof.
  unfold endpoint_keys. intros Hk [Hsrc Hdst].
  apply not_elem_of_cons in Hk as [H1 Hk].
  apply not_elem_of_cons in Hk as [H2 Hk].
  apply not_elem_of_cons in Hk as [H3 Hk].
  apply not_elem_of_cons in Hk as [H4 _].
  split; apply resolves_insert; assumption.
Qed.

Lemma paste_edge_run sel ed hm B E H mp n o ws :
  edge_resolves hm ed ->
  exists e,
    paste_edge sel ed hm (mkClipboard (mkScene B E H mp n) o ws)
    = (Return (<[ed_id ed := ItemEdge (length E)]> hm),
       mkClipboard (mkScene B (E ++ [e]) H mp (n + 1)) o ws)
    /\ edge_id e = n
    /\ edge_selected e = sel.
Proof.
  intros [[[h1 Hb1] [s1 Hs1]] [[h2 Hb2] [s2 Hs2]]].
  exists (mkEdge n s1 s2 sel).
  split; [|split; reflexivity].
  unfold paste_edge, Edge_deserialize, resolve_socket.
  rewrite Hb1, Hs1, Hb2, Hs2.
  destruct sel; reflexivity.
Qed.

Lemma paste_edges_run sel eds : forall hm B E H mp n o ws,
  Forall (edge_resolves hm) eds ->
  (forall ed ed', ed ∈ eds -> ed' ∈ eds -> ed_id ed ∉ endpoint_keys ed') ->
  exists new hm',
    for_fold eds hm (paste_edge sel) (mkClipboard (mkScene B E H mp n) o ws)
    = (Return hm',
       mkClipboard (mkScene B (E ++ new) H mp (n + Z.of_nat (length eds))) o ws)
    /\ map edge_id new = seqZ n (Z.of_nat (length eds))
    /\ Forall (fun e => edge_selected e = sel) new.
Proof.
  induction eds as [|ed eds IH]; intros hm B E H mp n o ws Hres Hkeys.
  - exists [], hm. cbn [for_fold length]. rewrite app_nil_r, Z.add_0_r.
    split; [reflexivity|]. split; [reflexivity|constructor].
  - apply Forall_cons in Hres as [Hed Hres].
    destruct (paste_edge_run sel ed hm B E H mp n o ws Hed) as (e & Hrun & Hid & Hsel).
    destruct (IH (<[ed_id ed := ItemEdge (length E)]> hm) B (E ++ [e]) H mp (n + 1) o ws)
      as (new & hm' & Hloop & Hids & Hsels).
    + apply Forall_forall. intros ed' Hin.
      apply edge_resolves_insert.
      * apply Hkeys; [apply list_elem_of_here|apply list_elem_of_further; exact Hin].
      * eapply Forall_forall in Hres; eassumption.
    + intros e1 e2 H1 H2.
      apply Hkeys; apply list_elem_of_further; assumption.
    + exists (e :: new), hm'. cbn [for_fold].
      erewrite bind_return; [|exact Hrun].
      rewrite Hloop. rewrite <- app_assoc. cbn [app length map].
      replace (n + 1 + Z.of_nat (length eds)) with (n + Z.of_nat (S (length eds)))
        by lia.
      split; [reflexivity|]. split.
      * rewrite (seqZ_cons n (Z.of_nat (S (length eds)))) by lia.
        rewrite Hid, Hids. f_equal. f_equal; lia.
      * constructor; assumption.
Qed.

(** *** Fresh identities *)

Lemma ids_used_pos bd : 1 <= ids_used bd.
Proof. unfold ids_used. lia. Qed.

Lemma ids_total_nonneg bds : 0 <= ids_total bds.
Proof.
  induction bds as [|bd bds IH]; cbn [ids_total]; [lia|].
  pose proof (ids_used_pos bd). lia.
Qed.

Lemma block_id_placed sel ox oy b : block_id (placed sel ox oy b) = block_id b.
Proof. destruct sel; reflexivity. Qed.

Lemma length_pasted_blocks sel ox oy bds : forall n,
  length (pasted_blocks sel ox oy n bds) = length bds.
Proof.
  induction bds as [|bd bds IH]; intros n; cbn [pasted_blocks length]; [reflexivity|].
  f_equal. apply IH.
Qed.

(** The identities of the pasted nodes are taken from the supply, in
    increasing order. *)
Lemma pasted_blocks_ids sel ox oy bds : forall n,
  Forall (fun i => n <= i < n + ids_total bds)
         (map block_id (pasted_blocks sel ox oy n bds))
  /\ NoDup (map block_id (pasted_blocks sel ox oy n bds)).
Proof.
  induction bds as [|bd bds IH]; intros n; cbn [pasted_blocks map ids_total].
  - split; constructor.
  - destruct (IH (n + ids_used bd)) as [Hrange Hnd].
    pose proof (ids_used_pos bd) as Hpos.
    pose proof (ids_total_nonneg bds) as Htot.
    rewrite block_id_placed. cbn [built_block block_id].
    split.
    + constructor; [lia|].
      eapply Forall_impl; [exact Hrange|]. intros i Hi. cbn beta in Hi. lia.
    + constructor; [|exact Hnd].
      intros Hin. eapply Forall_forall in Hrange; [|exact Hin].
      cbn beta in Hrange. lia.
Qed.

Lemma block_ids_in_node_ids bs k : k ∈ map bd_id bs -> k ∈ payload_node_ids bs.
Proof.
  induction bs as [|bd bs IH]; intros Hk; [inversion Hk|].
  rewrite payload_node_ids_cons. cbn [map] in Hk.
  apply elem_of_cons in Hk as [->|Hk].
  - apply elem_of_app. left. apply list_elem_of_here.
  - apply elem_of_app. right. apply IH. exact Hk.
Qed.

Lemma socket_ids_in_node_ids bs k :
  k ∈ payload_socket_ids bs -> k ∈ payload_node_ids bs.
Proof.
  induction bs as [|bd bs IH]; intros Hk; [inversion Hk|].
  rewrite payload_node_ids_cons. rewrite payload_socket_ids_cons in Hk.
  apply elem_of_app in Hk as [Hk|Hk].
  - apply elem_of_app. left. apply list_elem_of_further. exact Hk.
  - apply elem_of_app. right. apply IH. exact Hk.
Qed.

Lemma endpoint_keys_in_node_ids bs ed k :
  link_valid bs ed -> k ∈ endpoint_keys ed -> k ∈ payload_node_ids bs.
Proof.
  intros [[Hsb Hss] [Hdb Hds]] Hk. unfold endpoint_keys in Hk.
  repeat (apply elem_of_cons in Hk as [->|Hk]);
    [apply block_ids_in_node_ids|apply socket_ids_in_node_ids
    |apply block_ids_in_node_ids|apply socket_ids_in_node_ids|inversion Hk];
    assumption.
Qed.

(** A valid link resolves in the rebinding map left by the block loop. *)
Lemma link_valid_resolves bs ed n h :
  NoDup (payload_node_ids bs) ->
  link_valid bs ed ->
  edge_resolves (rebind_blocks n h bs ∅) ed.
Proof.
  intros Hnd [[Hsb Hss] [Hdb Hds]].
  split; split;
    first [apply rebind_blocks_lookup_block|apply rebind_blocks_lookup_socket];
    assumption.
Qed.

(** C5. For a stored payload of [k] nodes and [m] links whose identities are
    pairwise distinct and whose links are valid (each endpoint is a port of a
    node of the payload), a paste returns normally, appends exactly [k] nodes
    and exactly [m] links to the scene, and gives them identities generated
    from the supply: distinct from each other, from every identity of the
    payload (none is reused) and from every identity already in the scene. *)
Theorem paste_creates_fresh_copies
    (w : SceneClipboard) (d : OrderedDict)
    (bs : list BlockData) (es : list EdgeData) :
  objects w = Some d ->
  blocks d = Some bs ->
  edges d = Some es ->
  bs <> [] ->
  NoDup (payload_ids bs es) ->
  Forall (link_valid bs) es ->
  supply_above w bs es ->
  pasted_fresh w bs es.
Proof.
  intros Ho Hb He Hne Hnd Hvalid Hsup.
  destruct bs as [|b bs]; [congruence|].
  unfold payload_ids in Hnd. apply NoDup_app in Hnd as (Hnd_nodes & Hdisj & Hnd_edges).
  destruct w as [[B E H mp n] o ws].
  cbn [objects] in Ho. subst o.
  set (w := mkClipboard (mkScene B E H mp n) (Some d) ws).
  set (hm := rebind_blocks n (length B) (b :: bs) ∅).
  set (off := offset_for mp (bbox_center b bs)).
  set (nbs := pasted_blocks true (fst off) (snd off) n (b :: bs)).
  assert (Hres : Forall (edge_resolves hm) es).
  { eapply Forall_impl; [exact Hvalid|]. intros ed Hed.
    apply link_valid_resolves; assumption. }
  assert (Hkeys : forall ed ed', ed ∈ es -> ed' ∈ es -> ed_id ed ∉ endpoint_keys ed').
  { intros ed ed' Hin Hin' Hk.
    eapply Forall_forall in Hvalid; [|exact Hin'].
    apply (Hdisj (ed_id ed)).
    - eapply endpoint_keys_in_node_ids; eassumption.
    - apply list_elem_of_fmap. exists ed. split; [reflexivity|exact Hin]. }
  destruct (paste_edges_run true es hm
              (map (Block_setSelected false) B ++ nbs)
              (map (Edge_setSelected false) E) H mp (n + ids_total (b :: bs))
              (Some d) ws Hres Hkeys)
    as (nes & hm' & Hloop & Hids & _).
  assert (Hrun : paste w
            = (Return tt,
               mkClipboard
                 (mkScene (map (Block_setSelected false) B ++ nbs)
                          (map (Edge_setSelected false) E ++ nes)
                          (H ++ [("Desiralized elements into scene"%string, true)])
                          mp
                          (n + ids_total (b :: bs) + Z.of_nat (length es)))
                 (Some d) ws)).
  { rewrite (paste_stored w d eq_refl).
    rewrite (_deserializeData_blocks_phase d true b bs w Hb).
    unfold paste_edges_phase. rewrite He. cbn [getitem].
    erewrite bind_return; [|reflexivity].
    erewrite bind_return; [|exact Hloop].
    reflexivity. }
  destruct (pasted_blocks_ids true (fst off) (snd off) (b :: bs) n) as [Hrange Hnd_blocks].
  fold nbs in Hrange, Hnd_blocks.
  assert (Hfresh : forall i, i ∈ map block_id nbs ++ map edge_id nes -> n <= i).
  { intros i Hi. apply elem_of_app in Hi as [Hi|Hi].
    - eapply Forall_forall in Hrange; [|exact Hi]. cbn beta in Hrange. lia.
    - rewrite Hids in Hi. apply elem_of_seqZ in Hi.
      pose proof (ids_total_nonneg (b :: bs)). lia. }
  exists nbs, nes. rewrite Hrun. cbn [fst snd scene scene_blocks scene_edges].
  split; [reflexivity|]. split; [reflexivity|]. split; [reflexivity|].
  split; [apply length_pasted_blocks|].
  split; [apply (f_equal length) in Hids; rewrite length_map, length_seqZ in Hids; lia|].
  split.
  - apply NoDup_app. split; [exact Hnd_blocks|]. split.
    + intros i Hblock Hedge.
      eapply Forall_forall in Hrange; [|exact Hblock]. cbn beta in Hrange.
      rewrite Hids in Hedge. apply elem_of_seqZ in Hedge. lia.
    + rewrite Hids. apply NoDup_seqZ.
  - intros i Hi. specialize (Hfresh i Hi).
    unfold supply_above in Hsup. cbn [scene next_id] in Hsup.
    split; intros Hin.
    + eapply Forall_forall in Hsup; [|apply elem_of_app; left; exact Hin].
      cbn beta in Hsup. lia.
    + eapply Forall_forall in Hsup; [|apply elem_of_app; right; exact Hin].
      cbn beta in Hsup. lia.
Qed.

Lemma paste_creates_fresh_copies_witness :
  objects Scenario.after_copy = Some ScenarioData.payload
  /\ NoDup (payload_ids [ScenarioData.bdA; ScenarioData.bdB] [ScenarioData.edAB])
  /\ Forall (link_valid [ScenarioData.bdA; ScenarioData.bdB]) [ScenarioData.edAB]
  /\ supply_above Scenario.after_copy
       [ScenarioData.bdA; ScenarioData.bdB] [ScenarioData.edAB]
  /\ pasted_fresh Scenario.after_copy
       [ScenarioData.bdA; ScenarioData.bdB] [ScenarioData.edAB].
Proof.
  assert (Hnd : NoDup (payload_ids [ScenarioData.bdA; ScenarioData.bdB]
                                   [ScenarioData.edAB]))
    by (unfold supply_above; apply (bool_decide_unpack _); vm_compute; exact I).
  assert (Hvalid : Forall (link_valid [ScenarioData.bdA; ScenarioData.bdB])
                          [ScenarioData.edAB])
    by (unfold supply_above; apply (bool_decide_unpack _); vm_compute; exact I).
  assert (Hsup : supply_above Scenario.after_copy
                   [ScenarioData.bdA; ScenarioData.bdB] [ScenarioData.edAB])
    by (unfold supply_above; apply (bool_decide_unpack _); vm_compute; exact I).
  split; [reflexivity|]. split; [exact Hnd|]. split; [exact Hvalid|].
  split; [exact Hsup|].
  apply (paste_creates_fresh_copies Scenario.after_copy ScenarioData.payload);
    [reflexivity|reflexivity|reflexivity|discriminate|exact Hnd|exact Hvalid|exact Hsup].
Defined.

(** ** A copy of a closed selection can be pasted

    On a well-formed scene, the payload [copy] stores for a selection whose
    links all join selected blocks meets what the paste needs: distinct
    identities, valid links, identities below the supply. *)

Lemma block_data_ids_serialize b : block_data_ids (Block_serialize b) = block_ids b.
Proof.
  unfold block_data_ids, block_ids.
  cbn [Block_serialize bd_id bd_sockets_in bd_sockets_out].
  rewrite <- map_app, map_map. reflexivity.
Qed.

Lemma payload_node_ids_serialize bl :
  payload_node_ids (map Block_serialize bl) = concat (map block_ids bl).
Proof.
  induction bl as [|b bl IH]; [reflexivity|].
  cbn [map]. rewrite payload_node_ids_cons, block_data_ids_serialize, IH.
  reflexivity.
Qed.

Lemma selected_block_ids_sublist (p : Block -> bool) bl :
  concat (map block_ids (List.filter p bl)) `sublist_of` concat (map block_ids bl).
Proof.
  induction bl as [|b bl IH]; [constructor|].
  cbn [List.filter map concat]. destruct (p b).
  - cbn [map concat]. apply sublist_app; [reflexivity|exact IH].
  - apply sublist_inserts_l. exact IH.
Qed.

Lemma selected_edge_ids_sublist (p : Edge -> bool) el :
  map edge_id (List.filter p el) `sublist_of` map edge_id el.
Proof.
  induction el as [|e el IH]; [constructor|].
  cbn [List.filter map]. destruct (p e).
  - cbn [map]. apply sublist_skip. exact IH.
  - apply sublist_cons. exact IH.
Qed.

Lemma snapshot_ids_sublist s :
  payload_ids (map Block_serialize (sortedSelectedItems s).1)
              (map Edge_serialize (sortedSelectedItems s).2)
  `sublist_of` scene_ids s.
Proof.
  unfold payload_ids, scene_ids, sortedSelectedItems. cbn [fst snd].
  rewrite payload_node_ids_serialize, map_map.
  apply sublist_app; [apply selected_block_ids_sublist|].
  apply (selected_edge_ids_sublist edge_selected).
Qed.

Lemma elem_of_payload_socket_ids_serialize bl b (sk : Socket) :
  b ∈ bl -> sk ∈ sockets_in b ++ sockets_out b ->
  socket_id sk ∈ payload_socket_ids (map Block_serialize bl).
Proof.
  induction bl as [|b' bl IH]; intros Hb Hsk; [inversion Hb|].
  rewrite payload_socket_ids_serialize_cons. apply elem_of_app.
  apply elem_of_cons in Hb as [->|Hb].
  - left. apply list_elem_of_fmap. exists sk. split; [reflexivity|exact Hsk].
  - right. apply IH; assumption.
Qed.

Lemma selection_closed_connected s :
  selection_closed s ->
  Forall (fun e => not_fully_connected
                     (gather_sockets (sortedSelectedItems s).1) e = false)
         (sortedSelectedItems s).2.
Proof.
  unfold selection_closed. intros Hclosed.
  eapply Forall_impl; [exact Hclosed|].
  intros e (b1 & b2 & Hb1 & Hs1 & Hb2 & Hs2).
  pose proof (proj2 (gather_sockets_lookup _ _)
                (elem_of_payload_socket_ids_serialize _ _ _ Hb1 Hs1)) as [x1 Hx1].
  pose proof (proj2 (gather_sockets_lookup _ _)
                (elem_of_payload_socket_ids_serialize _ _ _ Hb2 Hs2)) as [x2 Hx2].
  unfold not_fully_connected. rewrite Hx1, Hx2. reflexivity.
Qed.

Lemma copy_payload_pasteable (s : Scene) (o : option OrderedDict) (ws : list string) :
  scene_wf s ->
  selection_closed s ->
  (sortedSelectedItems s).1 <> [] ->
  let bs := map Block_serialize (sortedSelectedItems s).1 in
  let es := map Edge_serialize (sortedSelectedItems s).2 in
  let w := (copy (mkClipboard s o ws)).2 in
  objects w = Some {| blocks := Some bs; edges := Some es |}
  /\ bs <> []
  /\ NoDup (payload_ids bs es)
  /\ Forall (link_valid bs) es
  /\ supply_above w bs es.
Proof.
  intros (Hnd & Hbelow & Howned) Hclosed Hsel. cbv zeta.
  pose proof (selection_closed_connected s Hclosed) as Hconn.
  assert (Hobj : objects (copy (mkClipboard s o ws)).2
                 = Some {| blocks := Some (map Block_serialize (sortedSelectedItems s).1);
                           edges := Some (map Edge_serialize (sortedSelectedItems s).2) |}).
  { unfold copy, bind. rewrite _serializeSelected_copy, _store_run.
    cbn [snd objects with_objects scene]. unfold snapshot_of.
    rewrite (filter_edges_keeps _ _ Hconn). unfold stored. cbn [blocks].
    destruct (sortedSelectedItems s).1; [congruence|reflexivity]. }
  split; [exact Hobj|].
  split; [destruct (sortedSelectedItems s).1; [congruence|discriminate]|].
  split; [eapply sublist_NoDup; [exact Hnd|apply snapshot_ids_sublist]|].
  split.
  - apply Forall_forall. intros ed Hed.
    apply list_elem_of_fmap in Hed as (e & -> & He).
    unfold selection_closed in Hclosed.
    eapply Forall_forall in Hclosed; [|exact He].
    destruct Hclosed as (b1 & b2 & Hb1 & Hs1 & Hb2 & Hs2).
    assert (Hown : forall b sk, b ∈ (sortedSelectedItems s).1 ->
                     sk ∈ sockets_in b ++ sockets_out b ->
                     socket_block sk ∈ map bd_id (map Block_serialize (sortedSelectedItems s).1)).
    { intros b sk Hb Hsk.
      assert (b ∈ scene_blocks s) as Hscene.
      { unfold sortedSelectedItems in Hb. cbn [fst] in Hb.
        apply list_elem_of_In, filter_In in Hb as [Hb _].
        apply list_elem_of_In. exact Hb. }
      eapply Forall_forall in Howned; [|exact Hscene].
      eapply Forall_forall in Howned; [|exact Hsk].
      rewrite Howned, map_map. apply list_elem_of_fmap.
      exists b. split; [reflexivity|exact Hb]. }
    split; split; cbn [Edge_serialize ed_source_socket ed_destination_socket
                        Socket_serialize sd_block sd_id];
      eauto using elem_of_payload_socket_ids_serialize.
  - unfold supply_above, copy, bind.
    rewrite _serializeSelected_copy, _store_run. cbn [snd scene with_objects].
    apply Forall_app. split; [|exact Hbelow].
    apply Forall_forall. intros i Hi.
    eapply Forall_forall in Hbelow; [exact Hbelow|].
    eapply elem_of_sublist; [exact Hi|apply snapshot_ids_sublist].
Qed.

(** * Further properties of the methods *)

(** ** The in-place filter of [_serializeSelected] *)

Lemma list_remove_first_sublist (x : Edge) (l : list Edge) :
  list_remove_first x l `sublist_of` l.
Proof.
  induction l as [|y l IH]; cbn [list_remove_first]; [constructor|].
  destruct (decide (y = x)).
  - apply sublist_cons. reflexivity.
  - apply sublist_skip. exact IH.
Qed.

Lemma filter_edges_loop_sublist fuel sel : forall i (l r : list Edge),
  filter_edges_loop fuel sel i l = Some r -> r `sublist_of` l.
Proof.
  induction fuel as [|fuel IH]; intros i l r; cbn [filter_edges_loop].
  - destruct (l !! i); [discriminate|]. intros [= ->]. reflexivity.
  - destruct (l !! i) as [edge|]; [|intros [= ->]; reflexivity].
    destruct (not_fully_connected sel edge); intros Hr.
    + etransitivity; [eapply IH; exact Hr|apply list_remove_first_sublist].
    + eapply IH. exact Hr.
Qed.

(** X1. The loop runs to the end of the list within one round per selected edge,
    and what it leaves is the selected edges with some of them taken out:
    nothing is added, duplicated or reordered. *)
Theorem filter_edges_is_subsequence
    (selected_sockets : gmap ident Socket) (selected_edges : list Edge) :
  filter_edges_loop (length selected_edges) selected_sockets 0 selected_edges
  = Some (filter_edges selected_sockets selected_edges)
  /\ filter_edges selected_sockets selected_edges `sublist_of` selected_edges
  /\ (length (filter_edges selected_sockets selected_edges)
      <= length selected_edges)%nat.
Proof.
  pose proof (filter_edges_loop_terminates (length selected_edges)
                selected_sockets 0 selected_edges) as [r Hr]; [lia|].
  unfold filter_edges. rewrite Hr. cbn [default].
  pose proof (filter_edges_loop_sublist _ _ _ _ _ Hr) as Hsub.
  split; [reflexivity|]. split; [exact Hsub|].
  apply sublist_length. exact Hsub.
Qed.

Lemma list_remove_first_middle (e : Edge) (kept rest : list Edge) :
  e ∉ kept -> list_remove_first e (kept ++ e :: rest) = kept ++ rest.
Proof.
  induction kept as [|y kept IH]; intros Hnotin; cbn [app list_remove_first].
  - destruct (decide (e = e)); [reflexivity|congruence].
  - apply not_elem_of_cons in Hnotin as [Hne Hnotin].
    destruct (decide (y = e)); [congruence|]. f_equal. apply IH. exact Hnotin.
Qed.

Lemma filter_edges_loop_skip_form sel fuel : forall (kept rest : list Edge),
  NoDup (kept ++ rest) ->
  (length rest <= fuel)%nat ->
  filter_edges_loop fuel sel (length kept) (kept ++ rest)
  = Some (kept ++ skip_filter sel rest).
Proof.
  induction fuel as [|fuel IH]; intros kept rest Hnd Hlen.
  - destruct rest as [|e rest]; [|cbn [length] in Hlen; lia].
    cbn [filter_edges_loop skip_filter]. rewrite app_nil_r.
    rewrite lookup_ge_None_2 by lia. reflexivity.
  - destruct rest as [|e rest].
    + cbn [filter_edges_loop skip_filter]. rewrite app_nil_r.
      rewrite lookup_ge_None_2 by lia. reflexivity.
    + cbn [filter_edges_loop]. rewrite list_lookup_middle by reflexivity.
      cbn [skip_filter length] in *.
      destruct (not_fully_connected sel e).
      * apply NoDup_app in Hnd as (Hkept & Hdisj & Hrest).
        apply NoDup_cons in Hrest as [He Hrest].
        rewrite list_remove_first_middle
          by (intros Hin; apply (Hdisj e Hin); apply list_elem_of_here).
        destruct rest as [|e' rest].
        -- destruct fuel; cbn [filter_edges_loop];
             rewrite app_nil_r, lookup_ge_None_2 by lia; reflexivity.
        -- replace (S (length kept)) with (length (kept ++ [e']))
             by (rewrite length_app; cbn [length]; lia).
           replace (kept ++ e' :: rest) with ((kept ++ [e']) ++ rest)
             by (rewrite <- app_assoc; reflexivity).
           rewrite IH.
           ++ rewrite <- app_assoc. reflexivity.
           ++ rewrite <- app_assoc. cbn [app].
              apply NoDup_app. split; [exact Hkept|]. split; [|exact Hrest].
              intros x Hx Hin. apply (Hdisj x Hx).
              apply list_elem_of_further. exact Hin.
           ++ cbn [length] in Hlen. lia.
      * replace (S (length kept)) with (length (kept ++ [e]))
          by (rewrite length_app; cbn [length]; lia).
        replace (kept ++ e :: rest) with ((kept ++ [e]) ++ rest)
          by (rewrite <- app_assoc; reflexivity).
        rewrite IH.
        -- rewrite <- app_assoc. reflexivity.
        -- rewrite <- app_assoc. exact Hnd.
        -- lia.
Qed.

(** X2. On distinct edge objects the loop computes [skip_filter]: each edge that
    is removed shields its successor from the test, so the first of the
    list is always tested and, of two neighbours that fail the test, the
    second one stays. *)
Theorem filter_edges_skip_form
    (selected_sockets : gmap ident Socket) (selected_edges : list Edge) :
  NoDup selected_edges ->
  filter_edges selected_sockets selected_edges
  = skip_filter selected_sockets selected_edges.
Proof.
  intros Hnd. unfold filter_edges.
  pose proof (filter_edges_loop_skip_form selected_sockets (length selected_edges)
                [] selected_edges Hnd (le_n _)) as Hloop.
  cbn [length app] in Hloop. rewrite Hloop. reflexivity.
Qed.

Lemma filter_edges_skip_form_witness :
  NoDup [Alternating.eAB; Alternating.eAA; Alternating.eAC]
  /\ filter_edges (gather_sockets [Alternating.bA])
       [Alternating.eAB; Alternating.eAA; Alternating.eAC]
     = skip_filter (gather_sockets [Alternating.bA])
         [Alternating.eAB; Alternating.eAA; Alternating.eAC].
Proof.
  assert (Hnd : NoDup [Alternating.eAB; Alternating.eAA; Alternating.eAC])
    by (apply (bool_decide_unpack _); vm_compute; exact I).
  split; [exact Hnd|].
  apply (filter_edges_skip_form _ _ Hnd).
Defined.

Lemma no_adjacent_bad_tail sel (e : Edge) (l : list Edge) :
  no_adjacent_bad sel (e :: l) -> no_adjacent_bad sel l.
Proof. destruct l as [|e' l]; [intros _; exact I|intros [_ Htail]; exact Htail]. Qed.

Lemma skip_filter_spec sel n : forall (l : list Edge),
  (length l <= n)%nat ->
  no_adjacent_bad sel l ->
  skip_filter sel l = filter_edges_spec sel l.
Proof.
  unfold filter_edges_spec.
  induction n as [|n IH]; intros l Hlen Hadj.
  - destruct l; [reflexivity|cbn [length] in Hlen; lia].
  - destruct l as [|e rest]; [reflexivity|].
    cbn [skip_filter List.filter length] in *.
    destruct (not_fully_connected sel e) eqn:He; cbn [negb].
    + destruct rest as [|e' rest']; [reflexivity|].
      destruct Hadj as [Hnext Htail]. specialize (Hnext He).
      cbn [List.filter]. rewrite Hnext. cbn [negb]. f_equal.
      apply IH; [cbn [length] in Hlen; lia|].
      eapply no_adjacent_bad_tail. exact Htail.
    + f_equal. apply IH; [lia|]. eapply no_adjacent_bad_tail. exact Hadj.
Qed.

(** X3. When the selected links are distinct objects and no dangling link
    directly follows another dangling link, the loop removes exactly the
    dangling links and the payload is closed. *)
Theorem snapshot_closed_without_adjacent_dangling (s : Scene) :
  NoDup (sortedSelectedItems s).2 ->
  no_adjacent_bad (gather_sockets (sortedSelectedItems s).1)
                  (sortedSelectedItems s).2 ->
  filter_edges (gather_sockets (sortedSelectedItems s).1) (sortedSelectedItems s).2
  = filter_edges_spec (gather_sockets (sortedSelectedItems s).1)
                      (sortedSelectedItems s).2
  /\ payload_closed (snapshot_of s).
Proof.
  intros Hnd Hadj.
  assert (Heq : filter_edges (gather_sockets (sortedSelectedItems s).1)
                             (sortedSelectedItems s).2
                = filter_edges_spec (gather_sockets (sortedSelectedItems s).1)
                                    (sortedSelectedItems s).2).
  { unfold filter_edges at 1.
    pose proof (filter_edges_loop_skip_form
                  (gather_sockets (sortedSelectedItems s).1)
                  (length (sortedSelectedItems s).2) [] _ Hnd (le_n _)) as Hloop.
    cbn [length app] in Hloop. rewrite Hloop. cbn [default].
    eapply skip_filter_spec; [reflexivity|exact Hadj]. }
  split; [exact Heq|].
  unfold snapshot_of. rewrite Heq. apply filter_edges_spec_sound.
Qed.

Lemma snapshot_closed_without_adjacent_dangling_witness :
  NoDup (sortedSelectedItems Alternating.the_scene).2
  /\ no_adjacent_bad (gather_sockets (sortedSelectedItems Alternating.the_scene).1)
                     (sortedSelectedItems Alternating.the_scene).2
  /\ payload_closed (snapshot_of Alternating.the_scene).
Proof.
  assert (Hnd : NoDup (sortedSelectedItems Alternating.the_scene).2)
    by (apply (bool_decide_unpack _); vm_compute; exact I).
  assert (Hadj : no_adjacent_bad
                   (gather_sockets (sortedSelectedItems Alternating.the_scene).1)
                   (sortedSelectedItems Alternating.the_scene).2).
  { vm_compute. split; [reflexivity|]. split; [discriminate|exact I]. }
  split; [exact Hnd|]. split; [exact Hadj|].
  apply (snapshot_closed_without_adjacent_dangling Alternating.the_scene Hnd Hadj).
Defined.

(** ** The socket table of [_serializeSelected] *)

Lemma gather_block_sockets_value (sockets : list Socket) :
  forall (acc : gmap ident Socket) k,
  match fold_left (fun acc socket => <[socket_id socket := socket]> acc)
                  sockets acc !! k with
  | Some socket =>
      (socket ∈ sockets /\ socket_id socket = k) \/ acc !! k = Some socket
  | None =>
      acc !! k = None /\ forall socket, socket ∈ sockets -> socket_id socket <> k
  end.
Proof.
  induction sockets as [|s0 sockets IH]; intros acc k; cbn [fold_left].
  - destruct (acc !! k) eqn:Hk; [right; reflexivity|].
    split; [reflexivity|]. intros s Hs. inversion Hs.
  - specialize (IH (<[socket_id s0 := s0]> acc) k).
    destruct (fold_left _ sockets _ !! k) as [s|].
    + destruct IH as [[Hin Hid]|Hacc].
      * left. split; [apply list_elem_of_further; exact Hin|exact Hid].
      * destruct (decide (socket_id s0 = k)) as [Heq|Hne].
        -- rewrite <- Heq, lookup_insert_eq in Hacc. injection Hacc as <-.
           left. split; [apply list_elem_of_here|exact Heq].
        -- rewrite lookup_insert_ne in Hacc by exact Hne. right. exact Hacc.
    + destruct IH as [Hacc Hall].
      destruct (decide (socket_id s0 = k)) as [Heq|Hne].
      * rewrite <- Heq, lookup_insert_eq in Hacc. discriminate Hacc.
      * rewrite lookup_insert_ne in Hacc by exact Hne.
        split; [exact Hacc|].
        intros s Hs. apply elem_of_cons in Hs as [->|Hs]; [exact Hne|].
        apply Hall. exact Hs.
Qed.

Lemma gather_sockets_value_acc (selected_blocks : list Block) :
  forall (acc : gmap ident Socket) k,
  match fold_left
          (fun acc block =>
             fold_left (fun acc socket => <[socket_id socket := socket]> acc)
                       (sockets_in block ++ sockets_out block) acc)
          selected_blocks acc !! k with
  | Some socket =>
      (socket_id socket = k
       /\ exists block, block ∈ selected_blocks
                        /\ socket ∈ sockets_in block ++ sockets_out block)
      \/ acc !! k = Some socket
  | None =>
      acc !! k = None
      /\ forall block socket, block ∈ selected_blocks ->
           socket ∈ sockets_in block ++ sockets_out block -> socket_id socket <> k
  end.
Proof.
  induction selected_blocks as [|b bl IH]; intros acc k; cbn [fold_left].
  - destruct (acc !! k) eqn:Hk; [right; reflexivity|].
    split; [reflexivity|]. intros b s Hb. inversion Hb.
  - specialize (IH (fold_left (fun acc socket => <[socket_id socket := socket]> acc)
                              (sockets_in b ++ sockets_out b) acc) k).
    pose proof (gather_block_sockets_value (sockets_in b ++ sockets_out b) acc k)
      as Hinner.
    destruct (fold_left _ bl _ !! k) as [s|].
    + destruct IH as [(Hid & b' & Hb' & Hs)|Hacc].
      * left. split; [exact Hid|]. exists b'.
        split; [apply list_elem_of_further; exact Hb'|exact Hs].
      * rewrite Hacc in Hinner. destruct Hinner as [[Hin Hid]|Hold].
        -- left. split; [exact Hid|]. exists b.
           split; [apply list_elem_of_here|exact Hin].
        -- right. exact Hold.
    + destruct IH as [Hacc Hall]. rewrite Hacc in Hinner.
      destruct Hinner as [Hold Hb].
      split; [exact Hold|].
      intros b' s Hb' Hs. apply elem_of_cons in Hb' as [->|Hb'].
      * apply Hb. exact Hs.
      * eapply Hall; eassumption.
Qed.

(** X4. [selected_sockets] is keyed by the identities of the ports of the
    selected blocks and by nothing else, and under an identity it holds a
    port of a selected block that has this identity. *)
Theorem gather_sockets_spec (selected_blocks : list Block) (k : ident) :
  match gather_sockets selected_blocks !! k with
  | Some socket =>
      socket_id socket = k
      /\ exists block, block ∈ selected_blocks
                       /\ socket ∈ sockets_in block ++ sockets_out block
  | None =>
      forall block socket, block ∈ selected_blocks ->
        socket ∈ sockets_in block ++ sockets_out block -> socket_id socket <> k
  end.
Proof.
  unfold gather_sockets.
  pose proof (gather_sockets_value_acc selected_blocks ∅ k) as H.
  destruct (fold_left _ selected_blocks ∅ !! k) as [s|].
  - destruct H as [H|H]; [exact H|]. rewrite lookup_empty in H. discriminate H.
  - destruct H as [_ H]. exact H.
Qed.

(** ** The centre computed by [_find_bbox_center] *)

Lemma is_min_transfer (d : Q) (l l' : list Q) (m m' : Q) :
  is_min m l -> is_min m' l' ->
  (forall y', y' ∈ l' -> exists y, y ∈ l /\ (y' == y + d)%Q) ->
  (forall y, y ∈ l -> exists y', y' ∈ l' /\ (y' == y + d)%Q) ->
  (m' == m + d)%Q.
Proof.
  intros [Hm Hle] [Hm' Hle'] Hback Hforth.
  destruct (Hback m' Hm') as (y & Hy & Heq).
  destruct (Hforth m Hm) as (y' & Hy' & Heq').
  specialize (Hle y Hy). specialize (Hle' y' Hy'). lra.
Qed.

Lemma is_max_transfer (d : Q) (l l' : list Q) (m m' : Q) :
  is_max m l -> is_max m' l' ->
  (forall y', y' ∈ l' -> exists y, y ∈ l /\ (y' == y + d)%Q) ->
  (forall y, y ∈ l -> exists y', y' ∈ l' /\ (y' == y + d)%Q) ->
  (m' == m + d)%Q.
Proof.
  intros [Hm Hle] [Hm' Hle'] Hback Hforth.
  destruct (Hback m' Hm') as (y & Hy & Heq).
  destruct (Hforth m Hm) as (y' & Hy' & Heq').
  specialize (Hle y Hy). specialize (Hle' y' Hy'). lra.
Qed.

(** A coordinate of the nodes that moves with them, read off two sequences
    that hold the same nodes up to the move. *)
Lemma same_nodes_moved_coordinate (dx dy d : Q) (g : BlockData -> Q) bds bds' :
  same_nodes_moved dx dy bds bds' ->
  (forall bd bd', moved_by dx dy bd bd' -> (g bd' == g bd + d)%Q) ->
  (forall y', y' ∈ map g bds' -> exists y, y ∈ map g bds /\ (y' == y + d)%Q)
  /\ (forall y, y ∈ map g bds -> exists y', y' ∈ map g bds' /\ (y' == y + d)%Q).
Proof.
  intros [Hback Hforth] Hg. split.
  - intros y' Hy'. apply list_elem_of_fmap in Hy' as (bd' & -> & Hbd').
    destruct (Hback bd' Hbd') as (bd & Hbd & Hmoved).
    exists (g bd). split; [apply list_elem_of_fmap; eauto|apply Hg; exact Hmoved].
  - intros y Hy. apply list_elem_of_fmap in Hy as (bd & -> & Hbd).
    destruct (Hforth bd Hbd) as (bd' & Hbd' & Hmoved).
    exists (g bd'). split; [apply list_elem_of_fmap; eauto|apply Hg; exact Hmoved].
Qed.

Lemma bbox_center_moved (dx dy : Q) b bs b' bs' :
  same_nodes_moved dx dy (b :: bs) (b' :: bs') ->
  (fst (bbox_center b' bs') == fst (bbox_center b bs) + dx)%Q
  /\ (snd (bbox_center b' bs') == snd (bbox_center b bs) + dy)%Q.
Proof.
  intros Hsame.
  destruct (bbox_bounds b bs) as (Hxmin & Hxmax & Hymin & Hymax).
  destruct (bbox_bounds b' bs') as (Hxmin' & Hxmax' & Hymin' & Hymax').
  assert (Hx1 : (bbox_xmin b' bs' == bbox_xmin b bs + dx)%Q).
  { eapply is_min_transfer; [exact Hxmin|exact Hxmin'| |];
      apply (same_nodes_moved_coordinate dx dy dx _ _ _ Hsame);
      intros bd bd' (H1 & H2 & H3 & H4); exact H1. }
  assert (Hx2 : (bbox_xmax b' bs' == bbox_xmax b bs + dx)%Q).
  { eapply is_max_transfer; [exact Hxmax|exact Hxmax'| |];
      apply (same_nodes_moved_coordinate dx dy dx _ _ _ Hsame);
      intros bd bd' (H1 & H2 & H3 & H4); cbn beta; lra. }
  assert (Hy1 : (bbox_ymin b' bs' == bbox_ymin b bs + dy)%Q).
  { eapply is_min_transfer; [exact Hymin|exact Hymin'| |];
      apply (same_nodes_moved_coordinate dx dy dy _ _ _ Hsame);
      intros bd bd' (H1 & H2 & H3 & H4); exact H2. }
  assert (Hy2 : (bbox_ymax b' bs' == bbox_ymax b bs + dy)%Q).
  { eapply is_max_transfer; [exact Hymax|exact Hymax'| |];
      apply (same_nodes_moved_coordinate dx dy dy _ _ _ Hsame);
      intros bd bd' (H1 & H2 & H3 & H4); cbn beta; lra. }
  unfold bbox_center. cbn [fst snd]. rewrite Hx1, Hx2, Hy1, Hy2. split; field.
Qed.


(** X7. The centre does not depend on the order of the nodes in the sequence. *)
Theorem bbox_center_order_independent
    (b b' : BlockData) (bs bs' : list BlockData) (w : SceneClipboard) :
  b :: bs ≡ₚ b' :: bs' ->
  exists c c',
    _find_bbox_center (b :: bs) w = (Return c, w)
    /\ _find_bbox_center (b' :: bs') w = (Return c', w)
    /\ (fst c == fst c')%Q
    /\ (snd c == snd c')%Q.
Proof.
  intros Hperm.
  exists (bbox_center b bs), (bbox_center b' bs').
  split; [reflexivity|]. split; [reflexivity|].
  assert (Hsame : same_nodes_moved 0 0 (b :: bs) (b' :: bs')).
  { assert (Hid : forall bd, moved_by 0 0 bd bd)
      by (intros bd; unfold moved_by; repeat split; lra).
    split.
    - intros bd Hbd. exists bd. split; [rewrite Hperm; exact Hbd|apply Hid].
    - intros bd Hbd. exists bd. split; [rewrite <- Hperm; exact Hbd|apply Hid]. }
  destruct (bbox_center_moved 0 0 b bs b' bs' Hsame) as [Hx Hy].
  split; lra.
Qed.

Lemma bbox_center_order_independent_witness :
  [ScenarioData.bdA; ScenarioData.bdB] ≡ₚ [ScenarioData.bdB; ScenarioData.bdA]
  /\ exists c c',
       _find_bbox_center [ScenarioData.bdA; ScenarioData.bdB] Scenario.after_copy
       = (Return c, Scenario.after_copy)
       /\ _find_bbox_center [ScenarioData.bdB; ScenarioData.bdA] Scenario.after_copy
          = (Return c', Scenario.after_copy)
       /\ (fst c == fst c')%Q
       /\ (snd c == snd c')%Q.
Proof.
  assert (Hperm : [ScenarioData.bdA; ScenarioData.bdB]
                  ≡ₚ [ScenarioData.bdB; ScenarioData.bdA])
    by apply perm_swap.
  split; [exact Hperm|].
  apply (bbox_center_order_independent _ _ _ _ Scenario.after_copy Hperm).
Defined.

(** X5. When no node has a negative width or height, every node lies inside the
    bounding box and the centre that is returned lies inside it too. *)
Theorem bbox_center_inside_box
    (b : BlockData) (bs : list BlockData) (w : SceneClipboard) :
  Forall (fun bd => (0 <= bd_width bd)%Q /\ (0 <= bd_height bd)%Q) (b :: bs) ->
  exists xmin xmax ymin ymax : Q,
    bounding_box (b :: bs) xmin xmax ymin ymax
    /\ _find_bbox_center (b :: bs) w
       = (Return (((xmin + xmax) / 2)%Q, ((ymin + ymax) / 2)%Q), w)
    /\ (xmin <= (xmin + xmax) / 2 <= xmax)%Q
    /\ (ymin <= (ymin + ymax) / 2 <= ymax)%Q
    /\ Forall (fun bd =>
                 (xmin <= fst (bd_position bd))%Q
                 /\ (fst (bd_position bd) + bd_width bd <= xmax)%Q
                 /\ (ymin <= snd (bd_position bd))%Q
                 /\ (snd (bd_position bd) + bd_height bd <= ymax)%Q)
              (b :: bs).
Proof.
  intros Hsize.
  pose proof (bbox_bounds b bs) as Hbox.
  exists (bbox_xmin b bs), (bbox_xmax b bs), (bbox_ymin b bs), (bbox_ymax b bs).
  split; [exact Hbox|]. split; [reflexivity|].
  destruct Hbox as ([_ Hxmin] & [_ Hxmax] & [_ Hymin] & [_ Hymax]).
  assert (Hin : Forall (fun bd =>
                 (bbox_xmin b bs <= fst (bd_position bd))%Q
                 /\ (fst (bd_position bd) + bd_width bd <= bbox_xmax b bs)%Q
                 /\ (bbox_ymin b bs <= snd (bd_position bd))%Q
                 /\ (snd (bd_position bd) + bd_height bd <= bbox_ymax b bs)%Q)
              (b :: bs)).
  { apply Forall_forall. intros bd Hbd.
    split; [apply Hxmin|split; [apply Hxmax|split; [apply Hymin|apply Hymax]]];
      apply list_elem_of_fmap; exists bd; (split; [reflexivity|exact Hbd]). }
  pose proof (Forall_inv Hin) as (Hx1 & Hx2 & Hy1 & Hy2).
  pose proof (Forall_inv Hsize) as [Hw Hh].
  remember ((bbox_xmin b bs + bbox_xmax b bs) / 2)%Q as cx eqn:Hcx.
  remember ((bbox_ymin b bs + bbox_ymax b bs) / 2)%Q as cy eqn:Hcy.
  assert (Hcx2 : (2 * cx == bbox_xmin b bs + bbox_xmax b bs)%Q)
    by (subst cx; field).
  assert (Hcy2 : (2 * cy == bbox_ymin b bs + bbox_ymax b bs)%Q)
    by (subst cy; field).
  clear Hcx Hcy.
  split; [lra|]. split; [lra|]. exact Hin.
Qed.

Lemma bbox_center_inside_box_witness :
  Forall (fun bd => (0 <= bd_width bd)%Q /\ (0 <= bd_height bd)%Q)
         [ScenarioData.bdA; ScenarioData.bdB]
  /\ exists xmin xmax ymin ymax : Q,
       bounding_box [ScenarioData.bdA; ScenarioData.bdB] xmin xmax ymin ymax
       /\ (xmin <= (xmin + xmax) / 2 <= xmax)%Q
       /\ (ymin <= (ymin + ymax) / 2 <= ymax)%Q.
Proof.
  assert (Hsize : Forall (fun bd => (0 <= bd_width bd)%Q /\ (0 <= bd_height bd)%Q)
                         [ScenarioData.bdA; ScenarioData.bdB]).
  { repeat constructor; cbn; unfold Qle; cbn; lia. }
  split; [exact Hsize|].
  destruct (bbox_center_inside_box ScenarioData.bdA [ScenarioData.bdB]
              Scenario.after_copy Hsize)
    as (xmin & xmax & ymin & ymax & Hbox & _ & Hx & Hy & _).
  exists xmin, xmax, ymin, ymax. split; [exact Hbox|]. split; [exact Hx|exact Hy].
Defined.

(** ** What a paste leaves behind, whether it returns or raises *)

Lemma bind_raises {A B} (m : M A) (k : A -> M B) w e w' :
  m w = (Raise e, w') -> bind m k w = (Raise e, w').
Proof. intros Hm. unfold bind. rewrite Hm. reflexivity. Qed.

Lemma resolve_socket_cases hm sd w :
  (exists socket, resolve_socket hm sd w = (Return socket, w))
  \/ resolve_socket hm sd w = (Raise KeyError, w).
Proof.
  unfold resolve_socket.
  destruct (hm !! sd_block sd) as [[h|s|h]|]; try (right; reflexivity).
  destruct (hm !! sd_id sd) as [[h'|s|h']|]; try (right; reflexivity).
  left. eexists. reflexivity.
Qed.

Lemma paste_edge_cases sel ed hm B E H mp n o ws :
  (exists e,
     paste_edge sel ed hm (mkClipboard (mkScene B E H mp n) o ws)
     = (Return (<[ed_id ed := ItemEdge (length E)]> hm),
        mkClipboard (mkScene B (E ++ [e]) H mp (n + 1)) o ws)
     /\ edge_selected e = sel
     /\ edge_id e = n)
  \/ paste_edge sel ed hm (mkClipboard (mkScene B E H mp n) o ws)
     = (Raise KeyError, mkClipboard (mkScene B E H mp (n + 1)) o ws).
Proof.
  unfold paste_edge, Edge_deserialize.
  set (w1 := mkClipboard (mkScene B E H mp (n + 1)) o ws).
  assert (Hfresh : new_id false (ed_id ed) (mkClipboard (mkScene B E H mp n) o ws)
                   = (Return n, w1)) by reflexivity.
  destruct (resolve_socket_cases hm (ed_source_socket ed) w1) as [[s1 Hs1]|Hs1].
  - destruct (resolve_socket_cases hm (ed_destination_socket ed) w1) as [[s2 Hs2]|Hs2].
    + left. exists (mkEdge n s1 s2 sel). split; [|split; reflexivity].
      erewrite bind_return;
        [|erewrite bind_return; [|exact Hfresh];
          erewrite bind_return; [|exact Hs1];
          erewrite bind_return; [|exact Hs2]; reflexivity].
      destruct sel; reflexivity.
    + right. apply bind_raises.
      erewrite bind_return; [|exact Hfresh].
      erewrite bind_return; [|exact Hs1].
      apply bind_raises. exact Hs2.
  - right. apply bind_raises.
    erewrite bind_return; [|exact Hfresh].
    apply bind_raises. exact Hs1.
Qed.

Lemma paste_edges_cases sel eds : forall hm B E H mp n o ws,
  exists new n',
    n <= n'
    /\ Forall (fun e => edge_selected e = sel) new
    /\ Forall (fun e => n <= edge_id e < n') new
    /\ NoDup (map edge_id new)
    /\ ((exists hm',
           for_fold eds hm (paste_edge sel) (mkClipboard (mkScene B E H mp n) o ws)
           = (Return hm', mkClipboard (mkScene B (E ++ new) H mp n') o ws)
           /\ length new = length eds)
        \/ for_fold eds hm (paste_edge sel) (mkClipboard (mkScene B E H mp n) o ws)
           = (Raise KeyError, mkClipboard (mkScene B (E ++ new) H mp n') o ws)).
Proof.
  induction eds as [|ed eds IH]; intros hm B E H mp n o ws.
  - exists [], n. split; [lia|]. split; [constructor|].
    split; [constructor|]. split; [constructor|].
    left. exists hm. rewrite app_nil_r. split; reflexivity.
  - destruct (paste_edge_cases sel ed hm B E H mp n o ws)
      as [(e & Hrun & Hsel & Hid)|Hrun].
    + destruct (IH (<[ed_id ed := ItemEdge (length E)]> hm) B (E ++ [e]) H mp (n + 1) o ws)
        as (new & n' & Hle & Hall & Hrange & Hnd & Hcases).
      exists (e :: new), n'. split; [lia|]. split; [constructor; assumption|].
      split; [|split].
      * constructor; [lia|].
        eapply Forall_impl; [exact Hrange|]. intros x Hx. cbn beta in Hx. lia.
      * cbn [map]. constructor; [|exact Hnd].
        intros Hin. apply list_elem_of_fmap in Hin as (x & Hx & Hin).
        eapply Forall_forall in Hrange; [|exact Hin]. cbn beta in Hrange. lia.
      * cbn [for_fold]. erewrite bind_return; [|exact Hrun].
        rewrite <- app_assoc in Hcases. cbn [app] in Hcases.
        destruct Hcases as [(hm' & Hloop & Hlen)|Hloop].
        -- left. exists hm'. split; [exact Hloop|cbn [length]; lia].
        -- right. exact Hloop.
    + exists [], (n + 1). split; [lia|]. split; [constructor|].
      split; [constructor|]. split; [constructor|].
      right. cbn [for_fold]. rewrite app_nil_r. apply bind_raises. exact Hrun.
Qed.

Lemma paste_edges_phase_cases sel d hm B E H mp n o ws :
  exists new n',
    n <= n'
    /\ Forall (fun e => edge_selected e = sel) new
    /\ Forall (fun e => n <= edge_id e < n') new
    /\ NoDup (map edge_id new)
    /\ ((paste_edges_phase sel d hm (mkClipboard (mkScene B E H mp n) o ws)
         = (Return tt,
            mkClipboard
              (mkScene B (E ++ new)
                 (H ++ [("Desiralized elements into scene"%string, true)]) mp n')
              o ws)
         /\ exists es, edges d = Some es /\ length new = length es)
        \/ paste_edges_phase sel d hm (mkClipboard (mkScene B E H mp n) o ws)
           = (Raise KeyError, mkClipboard (mkScene B (E ++ new) H mp n') o ws)).
Proof.
  unfold paste_edges_phase. destruct (edges d) as [es|]; cbn [getitem].
  - destruct (paste_edges_cases sel es hm B E H mp n o ws)
      as (new & n' & Hle & Hall & Hrange & Hnd & [(hm' & Hloop & Hlen)|Hloop]).
    + exists new, n'. split; [exact Hle|]. split; [exact Hall|].
      split; [exact Hrange|]. split; [exact Hnd|]. left.
      split; [|exists es; split; [reflexivity|exact Hlen]].
      erewrite bind_return; [|reflexivity].
      erewrite bind_return; [|exact Hloop]. reflexivity.
    + exists new, n'. split; [exact Hle|]. split; [exact Hall|].
      split; [exact Hrange|]. split; [exact Hnd|]. right.
      erewrite bind_return; [|reflexivity].
      apply bind_raises. exact Hloop.
  - exists [], n. split; [lia|]. split; [constructor|].
    split; [constructor|]. split; [constructor|]. right.
    rewrite app_nil_r. reflexivity.
Qed.

(** The whole of a paste of a stored payload that has a node: the state it
    leaves, with or without the checkpoint. *)
Lemma paste_cases B E H mp n d ws b bs :
  blocks d = Some (b :: bs) ->
  let w := mkClipboard (mkScene B E H mp n) (Some d) ws in
  let off := offset_for mp (bbox_center b bs) in
  let nbs := pasted_blocks true (fst off) (snd off) n (b :: bs) in
  exists nes n',
    n + ids_total (b :: bs) <= n'
    /\ Forall (fun e => edge_selected e = true) nes
    /\ Forall (fun e => n + ids_total (b :: bs) <= edge_id e < n') nes
    /\ NoDup (map edge_id nes)
    /\ ((paste w
         = (Return tt,
            mkClipboard
              (mkScene (map (Block_setSelected false) B ++ nbs)
                 (map (Edge_setSelected false) E ++ nes)
                 (H ++ [("Desiralized elements into scene"%string, true)]) mp n')
              (Some d) ws)
         /\ exists es, edges d = Some es /\ length nes = length es)
        \/ paste w
           = (Raise KeyError,
              mkClipboard
                (mkScene (map (Block_setSelected false) B ++ nbs)
                   (map (Edge_setSelected false) E ++ nes) H mp n')
                (Some d) ws)).
Proof.
  intros Hb w off nbs.
  rewrite (paste_stored w d eq_refl).
  rewrite (_deserializeData_blocks_phase d true b bs w Hb).
  unfold blocks_pasted, w.
  cbn [scene next_id scene_blocks scene_edges history lastMousePos objects
       warnings clearSelection].
  apply paste_edges_phase_cases.
Qed.

(** X8. A paste records its checkpoint when it returns and only then: a paste
    that raises (a payload without ["edges"], without nodes, or with a link
    that does not resolve) or finds the store absent leaves the history as it
    was. It warns only when the store is absent, and never moves the
    pointer. *)
Theorem paste_checkpoint_only_on_return (w : SceneClipboard) :
  history (scene (paste w).2)
  = match objects w, (paste w).1 with
    | Some _, Return _ =>
        history (scene w) ++ [("Desiralized elements into scene"%string, true)]
    | _, _ => history (scene w)
    end
  /\ warnings (paste w).2
     = match objects w with
       | Some _ => warnings w
       | None => warnings w ++ ["No object is loaded"%string]
       end
  /\ lastMousePos (scene (paste w).2) = lastMousePos (scene w).
Proof.
  destruct w as [[B E H mp n] [d|] ws];
    [|split; [reflexivity|split; reflexivity]].
  destruct (blocks d) as [[|b bs]|] eqn:Hb.
  - rewrite (paste_stored (mkClipboard (mkScene B E H mp n) (Some d) ws) d eq_refl).
    unfold _deserializeData. rewrite Hb.
    split; [reflexivity|split; reflexivity].
  - destruct (paste_cases B E H mp n d ws b bs Hb)
      as (nes & n' & _ & _ & _ & _ & [[Hrun _]|Hrun]);
      rewrite Hrun; (split; [reflexivity|split; reflexivity]).
  - rewrite (paste_stored (mkClipboard (mkScene B E H mp n) (Some d) ws) d eq_refl).
    unfold _deserializeData. rewrite Hb.
    split; [reflexivity|split; reflexivity].
Qed.

Lemma filter_deselected_blocks (l : list Block) :
  List.filter block_selected (map (Block_setSelected false) l) = [].
Proof. induction l as [|b l IH]; [reflexivity|exact IH]. Qed.

Lemma filter_deselected_edges (l : list Edge) :
  List.filter edge_selected (map (Edge_setSelected false) l) = [].
Proof. induction l as [|e l IH]; [reflexivity|exact IH]. Qed.

Lemma filter_all_selected {A} (p : A -> bool) (l : list A) :
  Forall (fun x => p x = true) l -> List.filter p l = l.
Proof.
  induction 1 as [|x l Hx Hl IH]; cbn [List.filter]; [reflexivity|].
  rewrite Hx. f_equal. exact IH.
Qed.

Lemma pasted_blocks_selected ox oy bds : forall n,
  Forall (fun b => block_selected b = true) (pasted_blocks true ox oy n bds).
Proof.
  induction bds as [|bd bds IH]; intros n; cbn [pasted_blocks]; constructor.
  - reflexivity.
  - apply IH.
Qed.

(** X9. After a paste of a stored payload that has a node, the selection is
    exactly what the paste created: everything that was selected before is
    deselected, every new node and every new link is selected. This holds
    also when the paste raises half way. *)
Theorem paste_selects_what_it_creates
    (w : SceneClipboard) (d : OrderedDict) (b : BlockData) (bs : list BlockData) :
  objects w = Some d ->
  blocks d = Some (b :: bs) ->
  exists new_blocks new_edges,
    scene_blocks (scene (paste w).2)
    = map (Block_setSelected false) (scene_blocks (scene w)) ++ new_blocks
    /\ scene_edges (scene (paste w).2)
       = map (Edge_setSelected false) (scene_edges (scene w)) ++ new_edges
    /\ length new_blocks = length (b :: bs)
    /\ sortedSelectedItems (scene (paste w).2) = (new_blocks, new_edges).
Proof.
  intros Ho Hb. destruct w as [[B E H mp n] o ws]. cbn [objects] in Ho. subst o.
  destruct (paste_cases B E H mp n d ws b bs Hb) as (nes & n' & _ & Hsel & _ & _ & Hrun).
  set (off := offset_for mp (bbox_center b bs)) in *.
  exists (pasted_blocks true (fst off) (snd off) n (b :: bs)), nes.
  assert (Hfilter :
    sortedSelectedItems
      (mkScene (map (Block_setSelected false) B
                  ++ pasted_blocks true (fst off) (snd off) n (b :: bs))
               (map (Edge_setSelected false) E ++ nes) H mp n')
    = (pasted_blocks true (fst off) (snd off) n (b :: bs), nes)).
  { unfold sortedSelectedItems. cbn [scene_blocks scene_edges].
    rewrite !List.filter_app, filter_deselected_blocks, filter_deselected_edges.
    cbn [app].
    rewrite (filter_all_selected _ _ (pasted_blocks_selected _ _ _ _)).
    rewrite (filter_all_selected _ _ Hsel). reflexivity. }
  destruct Hrun as [[Hrun _]|Hrun]; rewrite Hrun;
    cbn [snd scene scene_blocks scene_edges];
    (split; [reflexivity|]; split; [reflexivity|];
     split; [apply length_pasted_blocks|]).
  - unfold sortedSelectedItems in *. exact Hfilter.
  - unfold sortedSelectedItems in *. exact Hfilter.
Qed.

Lemma paste_selects_what_it_creates_witness :
  objects Scenario.after_copy = Some ScenarioData.payload
  /\ exists new_blocks new_edges,
       sortedSelectedItems (scene (paste Scenario.after_copy).2)
       = (new_blocks, new_edges)
       /\ length new_blocks = 2%nat.
Proof.
  split; [reflexivity|].
  destruct (paste_selects_what_it_creates Scenario.after_copy ScenarioData.payload
              ScenarioData.bdA [ScenarioData.bdB] eq_refl eq_refl)
    as (nbs & nes & _ & _ & Hlen & Hsel).
  exists nbs, nes. split; [exact Hsel|exact Hlen].
Defined.

(** ** How the operations compose *)

Lemma pasted_blocks_geometry sel ox oy bds : forall n,
  map block_geometry (pasted_blocks sel ox oy n bds)
  = map (fun bd => ((fst (bd_position bd) + ox)%Q, (snd (bd_position bd) + oy)%Q,
                    bd_width bd, bd_height bd)) bds.
Proof.
  induction bds as [|bd bds IH]; intros n; cbn [pasted_blocks map]; [reflexivity|].
  rewrite IH. f_equal. destruct sel; reflexivity.
Qed.

Lemma pasted_blocks_sizes sel ox oy bds : forall n,
  map block_size (pasted_blocks sel ox oy n bds)
  = map (fun bd => (bd_width bd, bd_height bd)) bds.
Proof.
  induction bds as [|bd bds IH]; intros n; cbn [pasted_blocks map]; [reflexivity|].
  rewrite IH. f_equal. destruct sel; reflexivity.
Qed.

(** X11. Pasting the same stored payload twice without moving the pointer puts
    the second batch of nodes exactly where the first one is, with the same
    sizes, under identities that are distinct from those of the first batch
    and from each other. *)
Theorem repaste_same_place_other_identities
    (w : SceneClipboard) (d : OrderedDict) (b : BlockData) (bs : list BlockData) :
  objects w = Some d ->
  blocks d = Some (b :: bs) ->
  exists first second,
    scene_blocks (scene (paste w).2)
    = map (Block_setSelected false) (scene_blocks (scene w)) ++ first
    /\ scene_blocks (scene (paste (paste w).2).2)
       = map (Block_setSelected false) (scene_blocks (scene (paste w).2)) ++ second
    /\ map block_geometry second = map block_geometry first
    /\ NoDup (map block_id first ++ map block_id second).
Proof.
  intros Ho Hb. destruct w as [[B E H mp n] o ws]. cbn [objects] in Ho. subst o.
  set (off := offset_for mp (bbox_center b bs)).
  destruct (paste_cases B E H mp n d ws b bs Hb) as (nes & n1 & Hn1 & _ & _ & _ & Hrun1).
  fold off in Hrun1.
  set (first := pasted_blocks true (fst off) (snd off) n (b :: bs)) in *.
  set (second := pasted_blocks true (fst off) (snd off) n1 (b :: bs)).
  exists first, second.
  assert (Hgeom : map block_geometry second = map block_geometry first)
    by (unfold first, second; rewrite !pasted_blocks_geometry; reflexivity).
  assert (Hnd : NoDup (map block_id first ++ map block_id second)).
  { destruct (pasted_blocks_ids true (fst off) (snd off) (b :: bs) n) as [Hr1 Hnd1].
    destruct (pasted_blocks_ids true (fst off) (snd off) (b :: bs) n1) as [Hr2 Hnd2].
    apply NoDup_app. split; [exact Hnd1|]. split; [|exact Hnd2].
    intros i Hi1 Hi2.
    eapply Forall_forall in Hr1; [|exact Hi1].
    eapply Forall_forall in Hr2; [|exact Hi2].
    cbn beta in Hr1, Hr2. lia. }
  destruct Hrun1 as [[Hrun1 _]|Hrun1]; rewrite Hrun1; cbn [snd].
  - destruct (paste_cases (map (Block_setSelected false) B ++ first)
                (map (Edge_setSelected false) E ++ nes)
                (H ++ [("Desiralized elements into scene"%string, true)])
                mp n1 d ws b bs Hb) as (nes2 & n2 & _ & _ & _ & _ & Hrun2).
    fold off in Hrun2. fold second in Hrun2.
    destruct Hrun2 as [[Hrun2 _]|Hrun2]; rewrite Hrun2;
      (split; [reflexivity|split; [reflexivity|split; assumption]]).
  - destruct (paste_cases (map (Block_setSelected false) B ++ first)
                (map (Edge_setSelected false) E ++ nes) H
                mp n1 d ws b bs Hb) as (nes2 & n2 & _ & _ & _ & _ & Hrun2).
    fold off in Hrun2. fold second in Hrun2.
    destruct Hrun2 as [[Hrun2 _]|Hrun2]; rewrite Hrun2;
      (split; [reflexivity|split; [reflexivity|split; assumption]]).
Qed.

Lemma repaste_same_place_other_identities_witness :
  objects Scenario.after_cut = Some ScenarioData.payload
  /\ exists first second,
       scene_blocks (scene (paste Scenario.after_cut).2)
       = map (Block_setSelected false) (scene_blocks (scene Scenario.after_cut))
         ++ first
       /\ map block_geometry second = map block_geometry first
       /\ NoDup (map block_id first ++ map block_id second).
Proof.
  split; [reflexivity|].
  destruct (repaste_same_place_other_identities Scenario.after_cut
              ScenarioData.payload ScenarioData.bdA [ScenarioData.bdB]
              eq_refl eq_refl)
    as (first & second & H1 & _ & Hgeom & Hnd).
  exists first, second. split; [exact H1|]. split; [exact Hgeom|exact Hnd].
Defined.

Lemma length_filter_split {A} (p : A -> bool) (l : list A) :
  (length (List.filter p l) + length (List.filter (fun x => negb (p x)) l)
   = length l)%nat.
Proof.
  induction l as [|x l IH]; [reflexivity|].
  cbn [List.filter]. destruct (p x); cbn [negb length]; lia.
Qed.

Lemma filter_selected_after_delete {A} (p : A -> bool) (l : list A) :
  List.filter p (List.filter (fun x => negb (p x)) l) = [].
Proof.
  induction l as [|x l IH]; [reflexivity|].
  cbn [List.filter]. destruct (p x) eqn:Hp; cbn [negb]; [exact IH|].
  cbn [List.filter]. rewrite Hp. exact IH.
Qed.

(** X12. A cut of a selection with at least one block followed by a paste gives
    the scene back as many blocks as the cut took away: the unselected
    blocks stay, and one new block of the same size stands for each block
    that was cut. *)
Theorem cut_then_paste_restores_blocks (w : SceneClipboard) :
  (sortedSelectedItems (scene w)).1 <> [] ->
  exists new_blocks,
    scene_blocks (scene (paste (cut w).2).2)
    = map (Block_setSelected false)
          (List.filter (fun b => negb (block_selected b)) (scene_blocks (scene w)))
      ++ new_blocks
    /\ map block_size new_blocks = map block_size (sortedSelectedItems (scene w)).1
    /\ length (scene_blocks (scene (paste (cut w).2).2))
       = length (scene_blocks (scene w)).
Proof.
  intros Hsel. destruct w as [[B E H mp n] o ws].
  unfold sortedSelectedItems in Hsel. cbn [scene scene_blocks fst] in Hsel.
  destruct (List.filter block_selected B) as [|b0 sel] eqn:Hfilter; [congruence|].
  set (d := snapshot_of (mkScene B E H mp n)).
  assert (Hblocks : blocks d
                    = Some (Block_serialize b0 :: map Block_serialize sel)).
  { unfold d, snapshot_of, sortedSelectedItems. cbn [blocks scene_blocks fst].
    rewrite Hfilter. reflexivity. }
  assert (Hcut : (cut (mkClipboard (mkScene B E H mp n) o ws)).2
                 = mkClipboard
                     (mkScene (List.filter (fun b => negb (block_selected b)) B)
                              (List.filter (fun e => negb (edge_selected e)) E)
                              H mp n)
                     (Some d) ws).
  { unfold cut, bind. rewrite _serializeSelected_cut, _store_run.
    cbn [snd with_objects with_scene scene objects warnings].
    fold d. unfold stored. rewrite Hblocks. reflexivity. }
  rewrite Hcut.
  destruct (paste_cases (List.filter (fun b => negb (block_selected b)) B)
              (List.filter (fun e => negb (edge_selected e)) E) H mp n d ws
              (Block_serialize b0) (map Block_serialize sel) Hblocks)
    as (nes & n' & _ & _ & _ & _ & Hrun).
  set (off := offset_for mp (bbox_center (Block_serialize b0)
                                         (map Block_serialize sel))) in *.
  exists (pasted_blocks true (fst off) (snd off) n
            (Block_serialize b0 :: map Block_serialize sel)).
  assert (Hsizes :
    map block_size (pasted_blocks true (fst off) (snd off) n
                      (Block_serialize b0 :: map Block_serialize sel))
    = map block_size (b0 :: sel)).
  { rewrite pasted_blocks_sizes.
    change (Block_serialize b0 :: map Block_serialize sel)
      with (map Block_serialize (b0 :: sel)).
    rewrite map_map. reflexivity. }
  assert (Hlen :
    length (map (Block_setSelected false)
                (List.filter (fun b => negb (block_selected b)) B)
            ++ pasted_blocks true (fst off) (snd off) n
                 (Block_serialize b0 :: map Block_serialize sel))
    = length B).
  { rewrite length_app, length_map, length_pasted_blocks.
    change (Block_serialize b0 :: map Block_serialize sel)
      with (map Block_serialize (b0 :: sel)).
    rewrite length_map, <- Hfilter.
    pose proof (length_filter_split block_selected B). lia. }
  unfold sortedSelectedItems. cbn [scene scene_blocks fst]. rewrite Hfilter.
  destruct Hrun as [[Hrun _]|Hrun]; rewrite Hrun;
    cbn [snd scene scene_blocks];
    (split; [reflexivity|split; [exact Hsizes|exact Hlen]]).
Qed.

Lemma cut_then_paste_restores_blocks_witness :
  (sortedSelectedItems Scenario.the_scene).1 <> []
  /\ length (scene_blocks (scene (paste (cut (__init__ Scenario.the_scene)).2).2))
     = length (scene_blocks Scenario.the_scene).
Proof.
  assert (Hsel : (sortedSelectedItems (scene (__init__ Scenario.the_scene))).1 <> [])
    by discriminate.
  split; [exact Hsel|].
  destruct (cut_then_paste_restores_blocks (__init__ Scenario.the_scene) Hsel)
    as (nbs & _ & _ & Hlen).
  exact Hlen.
Defined.

(** X13. After a cut nothing is selected any more, so a second cut or a copy
    right after it finds no block and empties the store: the payload of the
    first cut is lost. *)
Theorem cut_twice_empties_store (w : SceneClipboard) :
  sortedSelectedItems (scene (cut w).2) = ([], [])
  /\ objects (cut (cut w).2).2 = None
  /\ objects (copy (cut w).2).2 = None
  /\ scene (cut (cut w).2).2 = scene (cut w).2.
Proof.
  assert (Hnone : sortedSelectedItems (scene (cut w).2) = ([], [])).
  { unfold cut, bind. rewrite _serializeSelected_cut, _store_run.
    cbn [snd with_objects with_scene scene].
    unfold sortedSelectedItems, deleteSelected. cbn [scene_blocks scene_edges].
    rewrite !filter_selected_after_delete. reflexivity. }
  split; [exact Hnone|].
  assert (Hstore : forall w', sortedSelectedItems (scene w') = ([], []) ->
            objects (cut w').2 = None /\ objects (copy w').2 = None
            /\ scene (cut w').2 = scene w').
  { intros w' Hw'. unfold cut, copy, bind.
    rewrite _serializeSelected_cut, _serializeSelected_copy, !_store_run.
    cbn [snd with_objects with_scene scene objects].
    unfold stored, snapshot_of. rewrite Hw'. cbn [fst blocks map].
    split; [reflexivity|]. split; [reflexivity|].
    unfold sortedSelectedItems in Hw'. injection Hw' as Hb He.
    unfold deleteSelected. destruct (scene w') as [B E H mp n].
    cbn [scene_blocks scene_edges history lastMousePos next_id] in *.
    f_equal.
    - clear He. induction B as [|x B IH]; [reflexivity|].
      cbn [List.filter] in *. destruct (block_selected x); [discriminate Hb|].
      cbn [negb]. f_equal. apply IH. exact Hb.
    - clear Hb. induction E as [|x E IH]; [reflexivity|].
      cbn [List.filter] in *. destruct (edge_selected x); [discriminate He|].
      cbn [negb]. f_equal. apply IH. exact He. }
  destruct (Hstore (cut w).2 Hnone) as (H1 & H2 & H3).
  split; [exact H1|]. split; [exact H2|exact H3].
Qed.

(** A copy overwrites the store with a payload that depends on the scene
    alone, whatever the store held, and copying again right away changes
    nothing. *)
Theorem copy_overwrites_and_is_idempotent
    (w : SceneClipboard) (o : option OrderedDict) :
  objects (copy (with_objects o w)).2 = objects (copy w).2
  /\ copy (copy w).2 = copy w
  /\ match objects (copy w).2 with
     | Some d =>
         blocks d = Some (map Block_serialize (sortedSelectedItems (scene w)).1)
         /\ (sortedSelectedItems (scene w)).1 <> []
     | None => (sortedSelectedItems (scene w)).1 = []
     end.
Proof.
  unfold copy, bind. rewrite !_serializeSelected_copy, !_store_run.
  cbn [snd with_objects scene objects warnings].
  rewrite ?_serializeSelected_copy, ?_store_run.
  split; [reflexivity|]. split; [reflexivity|].
  unfold stored, snapshot_of. cbn [blocks].
  destruct (sortedSelectedItems (scene w)).1 as [|b0 sel];
    [reflexivity|]. split; [reflexivity|discriminate].
Qed.

(** What [_store] is given is what [_gatherData] hands back, silently, when
    the payload has a block; otherwise [_gatherData] hands back nothing and
    warns. *)
Theorem store_then_gather (data : OrderedDict) (w : SceneClipboard) :
  match blocks data with
  | Some (_ :: _) =>
      _gatherData (_store data w).2 = (Return (Some data), (_store data w).2)
      /\ warnings (_store data w).2 = warnings w
  | Some [] | None =>
      (_gatherData (_store data w).2).1 = Return None
      /\ warnings (_gatherData (_store data w).2).2
         = warnings w ++ ["No object is loaded"%string]
  end.
Proof.
  rewrite _store_run. unfold stored.
  destruct (blocks data) as [[|b bs]|]; split; reflexivity.
Qed.

(** ** A paste puts the middle of the group under the pointer *)





(** ** Copy, then paste *)

Lemma copy_final_scene (w : SceneClipboard) :
  scene (copy w).2 = scene w /\ warnings (copy w).2 = warnings w.
Proof.
  unfold copy, bind. rewrite _serializeSelected_copy, _store_run.
  split; reflexivity.
Qed.

Lemma paste_valid_returns B E H mp n d ws b bs es :
  blocks d = Some (b :: bs) ->
  edges d = Some es ->
  NoDup (payload_ids (b :: bs) es) ->
  Forall (link_valid (b :: bs)) es ->
  (paste (mkClipboard (mkScene B E H mp n) (Some d) ws)).1 = Return tt.
Proof.
  intros Hb He Hnd Hvalid.
  unfold payload_ids in Hnd. apply NoDup_app in Hnd as (Hnd_nodes & Hdisj & _).
  set (w := mkClipboard (mkScene B E H mp n) (Some d) ws).
  set (hm := rebind_blocks n (length B) (b :: bs) ∅).
  assert (Hres : Forall (edge_resolves hm) es).
  { eapply Forall_impl; [exact Hvalid|]. intros ed Hed.
    apply link_valid_resolves; assumption. }
  assert (Hkeys : forall ed ed', ed ∈ es -> ed' ∈ es -> ed_id ed ∉ endpoint_keys ed').
  { intros ed ed' Hin Hin' Hk.
    eapply Forall_forall in Hvalid; [|exact Hin'].
    apply (Hdisj (ed_id ed)).
    - eapply endpoint_keys_in_node_ids; eassumption.
    - apply list_elem_of_fmap. exists ed. split; [reflexivity|exact Hin]. }
  rewrite (paste_stored w d eq_refl).
  rewrite (_deserializeData_blocks_phase d true b bs w Hb).
  unfold paste_edges_phase, blocks_pasted, w. rewrite He.
  cbn [getitem scene next_id scene_blocks scene_edges history lastMousePos
       objects warnings clearSelection].
  erewrite bind_return; [|reflexivity].
  match goal with
  | |- (bind (for_fold es ?h (paste_edge true)) _
          (mkClipboard (mkScene ?B' ?E' ?H' ?mp' ?n') ?o' ?ws')).1 = _ =>
      destruct (paste_edges_run true es hm B' E' H' mp' n' o' ws' Hres Hkeys)
        as (nes & hm' & Hloop & _ & _)
  end.
  erewrite bind_return; [|exact Hloop]. reflexivity.
Qed.

(** X14. On a well-formed scene, copying a selection that has a block and whose
    links all join selected blocks, then pasting, returns normally and
    duplicates the selection: one new block of the same size per selected
    block, one new link per selected link, the items already in the scene
    staying as they are apart from being deselected. *)
Theorem copy_then_paste_duplicates
    (s : Scene) (o : option OrderedDict) (ws : list string) :
  scene_wf s ->
  selection_closed s ->
  (sortedSelectedItems s).1 <> [] ->
  exists new_blocks new_edges,
    (paste (copy (mkClipboard s o ws)).2).1 = Return tt
    /\ scene_blocks (scene (paste (copy (mkClipboard s o ws)).2).2)
       = map (Block_setSelected false) (scene_blocks s) ++ new_blocks
    /\ scene_edges (scene (paste (copy (mkClipboard s o ws)).2).2)
       = map (Edge_setSelected false) (scene_edges s) ++ new_edges
    /\ map block_size new_blocks = map block_size (sortedSelectedItems s).1
    /\ length new_edges = length (sortedSelectedItems s).2
    /\ sortedSelectedItems (scene (paste (copy (mkClipboard s o ws)).2).2)
       = (new_blocks, new_edges).
Proof.
  intros Hwf Hclosed Hsel.
  destruct (copy_payload_pasteable s o ws Hwf Hclosed Hsel)
    as (Hobj & Hne & Hnd & Hvalid & _).
  set (d := {| blocks := Some (map Block_serialize (sortedSelectedItems s).1);
               edges := Some (map Edge_serialize (sortedSelectedItems s).2) |}) in *.
  assert (Hcopy : (copy (mkClipboard s o ws)).2 = mkClipboard s (Some d) ws).
  { pose proof (copy_final_scene (mkClipboard s o ws)) as [Hs Hw].
    destruct (copy (mkClipboard s o ws)).2 as [s' o' ws'].
    cbn [scene objects warnings] in *. subst. reflexivity. }
  rewrite Hcopy. destruct s as [B E H mp n].
  destruct (map Block_serialize (sortedSelectedItems (mkScene B E H mp n)).1)
    as [|b bs] eqn:Hser; [congruence|].
  assert (Hb : blocks d = Some (b :: bs)) by reflexivity.
  pose proof (paste_valid_returns B E H mp n d ws b bs _ Hb eq_refl Hnd Hvalid)
    as Hret.
  destruct (paste_cases B E H mp n d ws b bs Hb) as (nes & n' & _ & Hallsel & _ & _ & Hrun).
  set (off := offset_for mp (bbox_center b bs)) in *.
  destruct Hrun as [[Hrun (es & Hes & Hlen)]|Hrun];
    [|rewrite Hrun in Hret; discriminate Hret].
  exists (pasted_blocks true (fst off) (snd off) n (b :: bs)), nes.
  rewrite Hrun. cbn [fst snd scene scene_blocks scene_edges].
  split; [reflexivity|]. split; [reflexivity|]. split; [reflexivity|].
  split; [|split].
  - rewrite pasted_blocks_sizes, <- Hser, map_map. reflexivity.
  - injection Hes as <-. rewrite Hlen, length_map. reflexivity.
  - unfold sortedSelectedItems. cbn [scene_blocks scene_edges].
    rewrite !List.filter_app, filter_deselected_blocks, filter_deselected_edges.
    cbn [app].
    rewrite (filter_all_selected _ _ (pasted_blocks_selected _ _ _ _)).
    rewrite (filter_all_selected _ _ Hallsel). reflexivity.
Qed.

Lemma copy_then_paste_duplicates_witness :
  scene_wf Scenario.the_scene
  /\ selection_closed Scenario.the_scene
  /\ exists (new_blocks : list Block) (new_edges : list Edge),
       (paste Scenario.after_copy).1 = Return tt
       /\ map block_size new_blocks
          = map block_size (sortedSelectedItems Scenario.the_scene).1
       /\ length new_edges = length (sortedSelectedItems Scenario.the_scene).2.
Proof.
  assert (Hwf : scene_wf Scenario.the_scene).
  { unfold scene_wf. apply (bool_decide_unpack _). vm_compute. exact I. }
  assert (Hclosed : selection_closed Scenario.the_scene).
  { unfold selection_closed. cbn. constructor; [|constructor].
    exists Scenario.bA, Scenario.bB. cbn.
    repeat split; repeat constructor. }
  split; [exact Hwf|]. split; [exact Hclosed|].
  destruct (copy_then_paste_duplicates Scenario.the_scene None [] Hwf Hclosed)
    as (nbs & nes & Hret & _ & _ & Hsizes & Hlen & _); [discriminate|].
  exists nbs, nes. split; [exact Hret|]. split; [exact Hsizes|exact Hlen].
Defined.

(** ** Well-formed scenes stay well formed *)

Lemma new_sockets_ids block sds : forall n,
  map socket_id (new_sockets block n sds) = seqZ n (Z.of_nat (length sds)).
Proof.
  induction sds as [|sd sds IH]; intros n; cbn [new_sockets map length].
  - reflexivity.
  - rewrite (seqZ_cons n) by lia. rewrite IH. f_equal. f_equal; lia.
Qed.

Lemma new_sockets_owner block sds : forall n,
  Forall (fun sk => socket_block sk = block) (new_sockets block n sds).
Proof.
  induction sds as [|sd sds IH]; intros n; cbn [new_sockets]; constructor.
  - reflexivity.
  - apply IH.
Qed.

Lemma block_ids_placed sel ox oy n bd :
  block_ids (placed sel ox oy (built_block n bd)) = seqZ n (ids_used bd).
Proof.
  unfold block_ids, ids_used.
  replace (sockets_in (placed sel ox oy (built_block n bd)))
    with (new_sockets n (n + 1) (bd_sockets_in bd)) by (destruct sel; reflexivity).
  replace (sockets_out (placed sel ox oy (built_block n bd)))
    with (new_sockets n (n + 1 + Z.of_nat (length (bd_sockets_in bd)))
            (bd_sockets_out bd)) by (destruct sel; reflexivity).
  rewrite block_id_placed. cbn [built_block block_id].
  rewrite map_app, !new_sockets_ids.
  rewrite (seqZ_cons n) by lia. f_equal.
  replace (Z.pred (1 + Z.of_nat (length (bd_sockets_in bd))
                   + Z.of_nat (length (bd_sockets_out bd))))
    with (Z.of_nat (length (bd_sockets_in bd))
          + Z.of_nat (length (bd_sockets_out bd))) by lia.
  rewrite seqZ_app by lia. f_equal; f_equal; lia.
Qed.

Lemma pasted_blocks_all_ids sel ox oy bds : forall n,
  concat (map block_ids (pasted_blocks sel ox oy n bds)) = seqZ n (ids_total bds).
Proof.
  induction bds as [|bd bds IH]; intros n; cbn [pasted_blocks map concat ids_total].
  - reflexivity.
  - rewrite block_ids_placed, IH.
    pose proof (ids_used_pos bd). pose proof (ids_total_nonneg bds).
    rewrite seqZ_app by lia. reflexivity.
Qed.

Lemma pasted_blocks_owned sel ox oy bds : forall n,
  Forall (fun b => Forall (fun sk => socket_block sk = block_id b)
                          (sockets_in b ++ sockets_out b))
         (pasted_blocks sel ox oy n bds).
Proof.
  induction bds as [|bd bds IH]; intros n; cbn [pasted_blocks]; constructor.
  - replace (sockets_in (placed sel ox oy (built_block n bd)))
      with (new_sockets n (n + 1) (bd_sockets_in bd)) by (destruct sel; reflexivity).
    replace (sockets_out (placed sel ox oy (built_block n bd)))
      with (new_sockets n (n + 1 + Z.of_nat (length (bd_sockets_in bd)))
              (bd_sockets_out bd)) by (destruct sel; reflexivity).
    rewrite block_id_placed. cbn [built_block block_id].
    apply Forall_app. split; apply new_sockets_owner.
  - apply IH.
Qed.

Lemma block_ids_deselected bl :
  concat (map block_ids (map (Block_setSelected false) bl))
  = concat (map block_ids bl).
Proof. rewrite map_map. reflexivity. Qed.

Lemma edge_ids_deselected el :
  map edge_id (map (Edge_setSelected false) el) = map edge_id el.
Proof. rewrite map_map. reflexivity. Qed.

Lemma scene_wf_clearSelection s : scene_wf s -> scene_wf (clearSelection s).
Proof.
  intros (Hnd & Hbelow & Howned). unfold scene_wf, scene_ids, clearSelection.
  cbn [scene_blocks scene_edges next_id].
  rewrite block_ids_deselected, edge_ids_deselected.
  split; [exact Hnd|]. split; [exact Hbelow|].
  apply Forall_fmap. eapply Forall_impl; [exact Howned|].
  intros b Hb. exact Hb.
Qed.

(** The scene after new nodes and links with identities taken from the
    supply have been appended. *)
Lemma scene_wf_extended B E H H' mp n n' nbs nes mid :
  scene_wf (mkScene B E H mp n) ->
  concat (map block_ids nbs) = seqZ n (mid - n) ->
  n <= mid <= n' ->
  Forall (fun b => Forall (fun sk => socket_block sk = block_id b)
                          (sockets_in b ++ sockets_out b)) nbs ->
  Forall (fun e => mid <= edge_id e < n') nes ->
  NoDup (map edge_id nes) ->
  scene_wf (mkScene (map (Block_setSelected false) B ++ nbs)
                    (map (Edge_setSelected false) E ++ nes) H' mp n').
Proof.
  intros (Hnd & Hbelow & Howned) Hids Hmid Hown Hrange Hnd_edges.
  unfold scene_wf, scene_ids in *. cbn [scene_blocks scene_edges next_id] in *.
  rewrite !map_app, concat_app, block_ids_deselected, edge_ids_deselected, Hids.
  apply NoDup_app in Hnd as (HndB & Hdisj & HndE).
  apply Forall_app in Hbelow as [HbelowB HbelowE].
  assert (HrangeE : forall i, i ∈ map edge_id nes -> mid <= i < n').
  { intros i Hi. apply list_elem_of_fmap in Hi as (e & -> & He).
    eapply Forall_forall in Hrange; [exact Hrange|exact He]. }
  split; [|split].
  - apply NoDup_app. split; [|split].
    + apply NoDup_app. split; [exact HndB|]. split; [|apply NoDup_seqZ].
      intros i Hi Hs. apply elem_of_seqZ in Hs.
      eapply Forall_forall in HbelowB; [|exact Hi]. cbn beta in HbelowB. lia.
    + intros i Hi Hi'. apply elem_of_app in Hi as [Hi|Hi];
        apply elem_of_app in Hi' as [Hi'|Hi'].
      * exact (Hdisj i Hi Hi').
      * apply HrangeE in Hi'.
        eapply Forall_forall in HbelowB; [|exact Hi]. cbn beta in HbelowB. lia.
      * apply elem_of_seqZ in Hi.
        eapply Forall_forall in HbelowE; [|exact Hi']. cbn beta in HbelowE. lia.
      * apply elem_of_seqZ in Hi. apply HrangeE in Hi'. lia.
    + apply NoDup_app. split; [exact HndE|]. split; [|exact Hnd_edges].
      intros i Hi Hi'. apply HrangeE in Hi'.
      eapply Forall_forall in HbelowE; [|exact Hi]. cbn beta in HbelowE. lia.
  - apply Forall_forall. intros i Hi.
    repeat (apply elem_of_app in Hi as [Hi|Hi]).
    + eapply Forall_forall in HbelowB; [|exact Hi]. cbn beta in HbelowB. lia.
    + apply elem_of_seqZ in Hi. lia.
    + eapply Forall_forall in HbelowE; [|exact Hi]. cbn beta in HbelowE. lia.
    + apply HrangeE in Hi. lia.
  - apply Forall_app. split; [|exact Hown].
    apply Forall_fmap. eapply Forall_impl; [exact Howned|].
    intros b Hb. exact Hb.
Qed.

Lemma scene_wf_deleteSelected s : scene_wf s -> scene_wf (deleteSelected s).
Proof.
  intros (Hnd & Hbelow & Howned).
  assert (Hsub : scene_ids (deleteSelected s) `sublist_of` scene_ids s).
  { unfold scene_ids, deleteSelected. cbn [scene_blocks scene_edges].
    apply sublist_app;
      [apply selected_block_ids_sublist|apply selected_edge_ids_sublist]. }
  split; [eapply sublist_NoDup; eassumption|]. split.
  - apply Forall_forall. intros i Hi.
    eapply Forall_forall in Hbelow; [exact Hbelow|].
    eapply elem_of_sublist; eassumption.
  - unfold deleteSelected. cbn [scene_blocks].
    apply Forall_forall. intros b Hb.
    apply list_elem_of_In, filter_In in Hb as [Hb _].
    eapply Forall_forall in Howned; [exact Howned|].
    apply list_elem_of_In. exact Hb.
Qed.

(** X15. Cut, copy and paste keep the scene well formed: identities stay pairwise
    distinct and below the supply, and every port keeps referring to its own
    block. For paste this holds whether it returns or raises. *)
Theorem operations_keep_scene_wf (w : SceneClipboard) :
  scene_wf (scene w) ->
  scene_wf (scene (cut w).2)
  /\ scene_wf (scene (copy w).2)
  /\ scene_wf (scene (paste w).2).
Proof.
  intros Hwf. split; [|split].
  - destruct (cut_final_state w) as [-> _]. apply scene_wf_deleteSelected. exact Hwf.
  - destruct (copy_final_scene w) as [-> _]. exact Hwf.
  - destruct w as [[B E H mp n] [d|] ws]; [|exact Hwf].
    cbn [scene] in Hwf.
    destruct (blocks d) as [[|b bs]|] eqn:Hb.
    + rewrite (paste_stored (mkClipboard (mkScene B E H mp n) (Some d) ws) d eq_refl).
      unfold _deserializeData. rewrite Hb.
      exact (scene_wf_clearSelection _ Hwf).
    + destruct (paste_cases B E H mp n d ws b bs Hb)
        as (nes & n' & Hn' & _ & Hrange & Hnd & Hrun).
      set (off := offset_for mp (bbox_center b bs)) in *.
      pose proof (ids_total_nonneg (b :: bs)) as Htot.
      assert (Hext : forall H',
                scene_wf (mkScene
                  (map (Block_setSelected false) B
                   ++ pasted_blocks true (fst off) (snd off) n (b :: bs))
                  (map (Edge_setSelected false) E ++ nes) H' mp n')).
      { intros H'.
        eapply (scene_wf_extended B E H H' mp n n' _ nes (n + ids_total (b :: bs)));
          [exact Hwf| |lia|apply pasted_blocks_owned|exact Hrange|exact Hnd].
        rewrite pasted_blocks_all_ids. f_equal. lia. }
      destruct Hrun as [[Hrun _]|Hrun]; rewrite Hrun; apply Hext.
    + rewrite (paste_stored (mkClipboard (mkScene B E H mp n) (Some d) ws) d eq_refl).
      unfold _deserializeData. rewrite Hb.
      exact (scene_wf_clearSelection _ Hwf).
Qed.

Lemma operations_keep_scene_wf_witness :
  scene_wf (scene Scenario.after_copy)
  /\ scene_wf (scene (paste Scenario.after_copy).2).
Proof.
  assert (Hwf : scene_wf (scene Scenario.after_copy)).
  { unfold scene_wf. apply (bool_decide_unpack _). vm_compute. exact I. }
  split; [exact Hwf|].
  apply (operations_keep_scene_wf Scenario.after_copy Hwf).
Defined.

(** ** [_deserializeData] without selection *)

Lemma pasted_blocks_unselected ox oy bds : forall n,
  Forall (fun b => block_selected b = false) (pasted_blocks false ox oy n bds).
Proof.
  induction bds as [|bd bds IH]; intros n; cbn [pasted_blocks]; constructor.
  - reflexivity.
  - apply IH.
Qed.

Lemma filter_none_selected {A} (p : A -> bool) (l : list A) :
  Forall (fun x => p x = false) l -> List.filter p l = [].
Proof.
  induction 1 as [|x l Hx Hl IH]; cbn [List.filter]; [reflexivity|].
  rewrite Hx. exact IH.
Qed.

(** X16. With [set_selected=False], [_deserializeData] of a payload that has
    a block leaves the items of the scene exactly as they are, selection
    included, appends one unselected block per serialized block and only
    unselected edges, so the selection after the call is the selection
    before it; this holds also when the call raises in the edge loop. *)
Theorem deserialize_unselected_keeps_selection
    (w : SceneClipboard) (d : OrderedDict) (b : BlockData) (bs : list BlockData) :
  blocks d = Some (b :: bs) ->
  exists new_blocks new_edges,
    scene_blocks (scene (_deserializeData (Some d) false w).2)
    = scene_blocks (scene w) ++ new_blocks
    /\ scene_edges (scene (_deserializeData (Some d) false w).2)
       = scene_edges (scene w) ++ new_edges
    /\ length new_blocks = length (b :: bs)
    /\ sortedSelectedItems (scene (_deserializeData (Some d) false w).2)
       = sortedSelectedItems (scene w).
Proof.
  intros Hb. destruct w as [[B E H mp n] o ws].
  rewrite (_deserializeData_blocks_phase d false b bs _ Hb).
  unfold blocks_pasted.
  cbn [scene next_id scene_blocks scene_edges history lastMousePos objects warnings].
  set (off := offset_for mp (bbox_center b bs)).
  set (nbs := pasted_blocks false (fst off) (snd off) n (b :: bs)).
  destruct (paste_edges_phase_cases false d
              (rebind_blocks n (length B) (b :: bs) ∅)
              (B ++ nbs) E H mp (n + ids_total (b :: bs)) o ws)
    as (nes & n' & _ & Hunsel & _ & _ & Hrun).
  exists nbs, nes.
  assert (Hfilter : forall H',
    sortedSelectedItems (mkScene (B ++ nbs) (E ++ nes) H' mp n')
    = sortedSelectedItems (mkScene B E H mp n)).
  { intros H'. unfold sortedSelectedItems. cbn [scene_blocks scene_edges].
    rewrite !List.filter_app.
    rewrite (filter_none_selected block_selected nbs
               (pasted_blocks_unselected _ _ _ _)).
    rewrite (filter_none_selected edge_selected nes Hunsel).
    rewrite !app_nil_r. reflexivity. }
  destruct Hrun as [[Hrun _]|Hrun]; rewrite Hrun;
    cbn [snd scene scene_blocks scene_edges];
    (split; [reflexivity|split; [reflexivity|
       split; [apply length_pasted_blocks|apply Hfilter]]]).
Qed.

Lemma deserialize_unselected_keeps_selection_witness :
  blocks ScenarioData.payload = Some [ScenarioData.bdA; ScenarioData.bdB]
  /\ sortedSelectedItems
       (scene (_deserializeData (Some ScenarioData.payload) false
                 Scenario.after_copy).2)
     = sortedSelectedItems (scene Scenario.after_copy).
Proof.
  split; [reflexivity|].
  destruct (deserialize_unselected_keeps_selection Scenario.after_copy
              ScenarioData.payload ScenarioData.bdA [ScenarioData.bdB] eq_refl)
    as (nbs & nes & _ & _ & _ & Hsel).
  exact Hsel.
Defined.
